(** * The object materialization engine of [modal/app.py]

    A shallow embedding of [_lookup_to_id], [_App.load] and
    [_App.create_all_objects], with the properties of the load algorithm:
    memoization, reconciliation against previously deployed ids, reference
    resolution, registration and the order of the remote calls.

    Python objects have an identity: [Object.local_uuid].  An object is
    therefore a pointer ([LocalUUID], an index into the store [objects] of
    all objects built so far), and a cache keyed by [local_uuid] is keyed by
    that pointer.  A session mutates its three dictionaries in place, and an
    exception leaves them as they are: the monad below keeps the state on
    every outcome. *)

From Stdlib Require Import String List Arith Lia.
From stdpp Require Import base option list gmap strings.

Open Scope string_scope.
Open Scope list_scope.

(** ** Data *)

Abbreviation LocalUUID := nat (only parsing).
Abbreviation ObjectID := string (only parsing).
Abbreviation Namespace := N (only parsing).

(** Modelled from the spec: [api_pb2.DEPLOYMENT_NAMESPACE_ACCOUNT], the
    default namespace of [ref] and [_lookup].  The enum lives in the
    generated protobuf module, which is outside the files covered here;
    nothing below depends on its number. *)
Definition DEPLOYMENT_NAMESPACE_ACCOUNT : Namespace := 1%N.

(** The exceptions [load] and its callees raise. *)
Inductive Error :=
| NotFoundError (error_message : string)
    (* raise NotFoundError(response.error_message) *)
| RemoteError (detail : string)
    (* an RPC on [client.stub] failed *)
| KeyError (tag : string)
    (* self._app._blueprint[obj.tag] on a missing tag *)
| AssertionError
    (* assert not obj.definition *)
| ExistingIdMismatch (existing_object_id : ObjectID) (object_id : option ObjectID)
    (* Exception("Tried creating an object using existing id ... but it has id ...") *)
| ObjectIdIsNone
    (* Exception("object_id for object of type ... is None") *)
| CreationError (detail : string).
    (* raised by an object's own [_load] *)

(** Modelled from the spec: the creation logic of the object kinds, whose
    [_load] methods are outside the files covered here.  The coroutine
    [obj._load(client, app_id, existing_object_id)] returns an object id
    (possibly [None]), awaits another [Object] (intercepted, the id of that
    object is sent back), awaits an RPC of its own (passed through to the
    event loop; the reply or the failure comes back into the coroutine), or
    raises.  Every theorem holds for all creation logic of this shape. *)
Inductive Coro :=
| CoReturn (object_id : option ObjectID)
| CoAwaitObject (awaitable : LocalUUID) (k : option ObjectID -> Coro)
| CoAwaitRpc (request : string) (k : Error + string -> Coro)
| CoRaise (e : Error).

(** [Ref] against every other kind of [Object] (functions, images, queues,
    ...), which differ only in their [_load]. *)
Inductive Object :=
| Definition_ (_load : string -> option ObjectID -> Coro)
| Ref (app_name : option string) (tag : string) (namespace : Namespace)
      (definition : option LocalUUID).

(** Modelled from the spec: [Object.from_id] of [modal/object.py], which is
    outside the files covered here.  [Object.from_id(object_id, client)]
    is a handle whose [object_id] attribute reads the id back. *)
Record Handle := from_id { object_id : option ObjectID }.

(** Calls that leave the session, in the order they are issued, and (as
    ghost events) the invocations of creation logic. *)
Inductive Event :=
| EvLoad (obj : LocalUUID) (existing_object_id : option ObjectID)
    (* obj._load(client, app_id, existing_object_id) is started *)
| EvRpc (request : string)
    (* an RPC awaited by a creation coroutine *)
| EvDeploy (app_name : string) (blueprint : list (string * LocalUUID))
    (* _Stub(app_name) with the given blueprint, .deploy(client) *)
| EvAppLookupObject (app_name tag : string) (namespace : Namespace)
| EvAppSetObjects (app_id : string) (object_ids : gmap string (option ObjectID))
                  (client_id : string).

Record AppLookupObjectResponse :=
  { resp_object_id : string; resp_error_message : string }.

(** The server and the transport: every reply is a function of the request
    and of all that happened before it. *)
Record Server := {
  srv_rpc : list Event -> string -> Error + string;
  srv_deploy : list Event -> string -> list (string * LocalUUID) -> option Error;
  srv_lookup : list Event -> string -> string -> Namespace ->
               Error + AppLookupObjectResponse;
  srv_set_objects : list Event -> string -> gmap string (option ObjectID) ->
                    string -> option Error
}.

(** The session ([_App]'s three dictionaries) with the store of objects and
    the log of events. *)
Record State := {
  objects : list Object;
  events : list Event;
  _tag_to_object : gmap string Handle;
  _tag_to_existing_id : gmap string ObjectID;
  _local_uuid_to_object_id : gmap LocalUUID (option ObjectID)
}.

(** ** The monad of session code *)

Inductive Res (A : Type) :=
| Returned (a : A)
| Raised (e : Error)
| Dangling
    (* a pointer to no object: no Python value is like that *)
| OutOfFuel.
    (* the recursion went deeper than the fuel given *)
Arguments Returned {A} a.
Arguments Raised {A} e.
Arguments Dangling {A}.
Arguments OutOfFuel {A}.

Definition M (A : Type) : Type := State -> Res A * State.

Definition ret {A} (a : A) : M A := fun s => (Returned a, s).
Definition raise {A} (e : Error) : M A := fun s => (Raised e, s).
Definition bind {A B} (m : M A) (f : A -> M B) : M B :=
  fun s =>
    match m s with
    | (Returned a, s') => f a s'
    | (Raised e, s') => (Raised e, s')
    | (Dangling, s') => (Dangling, s')
    | (OutOfFuel, s') => (OutOfFuel, s')
    end.

Declare Scope session_scope.
Delimit Scope session_scope with session.
Notation "'let*' x ':=' c1 'in' c2" := (bind c1 (fun x => c2))
  (at level 10, x name, c1 at level 100, c2 at level 200) : session_scope.
Notation "c1 ';;' c2" := (bind c1 (fun _ => c2))
  (at level 100, c2 at level 200, right associativity) : session_scope.
Open Scope session_scope.

Definition get : M State := fun s => (Returned s, s).

(** The in-place updates of the state. *)
Definition log_event (e : Event) (s : State) : State :=
  {| objects := objects s; events := events s ++ [e];
     _tag_to_object := _tag_to_object s;
     _tag_to_existing_id := _tag_to_existing_id s;
     _local_uuid_to_object_id := _local_uuid_to_object_id s |}.

Definition with_tag_to_object (tag : string) (h : Handle) (s : State) : State :=
  {| objects := objects s; events := events s;
     _tag_to_object := <[tag := h]> (_tag_to_object s);
     _tag_to_existing_id := _tag_to_existing_id s;
     _local_uuid_to_object_id := _local_uuid_to_object_id s |}.

Definition memoize (u : LocalUUID) (v : option ObjectID) (s : State) : State :=
  {| objects := objects s; events := events s;
     _tag_to_object := _tag_to_object s;
     _tag_to_existing_id := _tag_to_existing_id s;
     _local_uuid_to_object_id := <[u := v]> (_local_uuid_to_object_id s) |}.

Definition alloc (o : Object) (s : State) : State :=
  {| objects := objects s ++ [o]; events := events s;
     _tag_to_object := _tag_to_object s;
     _tag_to_existing_id := _tag_to_existing_id s;
     _local_uuid_to_object_id := _local_uuid_to_object_id s |}.

Definition emit (e : Event) : M unit := fun s => (Returned tt, log_event e s).

Definition set_tag_to_object (tag : string) (h : Handle) : M unit :=
  fun s => (Returned tt, with_tag_to_object tag h s).

Definition set_local_uuid_to_object_id (u : LocalUUID) (v : option ObjectID) : M unit :=
  fun s => (Returned tt, memoize u v s).

(** Building an object gives it the next [local_uuid]. *)
Definition new_object (o : Object) : M LocalUUID :=
  fun s => (Returned (length (objects s)), alloc o s).

Definition deref (obj : LocalUUID) : M Object :=
  fun s => match objects s !! obj with
           | Some o => (Returned o, s)
           | None => (Dangling, s)
           end.

Section App.

(** [self._app._blueprint] in insertion order (the keys of a dict are
    pairwise distinct), [self._app_id], [self._client.client_id] and the
    server behind [self._client]. *)
Variable _blueprint : list (string * LocalUUID).
Variable _app_id : string.
Variable client_id : string.
Variable server : Server.

Fixpoint blueprint_get (bp : list (string * LocalUUID)) (tag : string)
  : option LocalUUID :=
  match bp with
  | [] => None
  | (t, o) :: bp' => if String.eqb t tag then Some o else blueprint_get bp' tag
  end.

(** [self._app._blueprint[tag]] *)
Definition blueprint_getitem (tag : string) : M LocalUUID :=
  match blueprint_get _blueprint tag with
  | Some o => ret o
  | None => raise (KeyError tag)
  end.

(** [_lookup_to_id(app_name, tag, namespace, client)] *)
Definition _lookup_to_id (app_name tag : string) (namespace : Namespace) : M ObjectID :=
  let* s := get in
  emit (EvAppLookupObject app_name tag namespace) ;;
  match srv_lookup server (events s) app_name tag namespace with
  | inl e => raise e
  | inr response =>
      if String.eqb (resp_object_id response) ""
      then raise (NotFoundError (resp_error_message response))
      else ret (resp_object_id response)
  end.

(** [_lookup(app_name, tag, namespace, client)] *)
Definition _lookup (app_name tag : string) (namespace : Namespace) : M Handle :=
  let* object_id := _lookup_to_id app_name tag namespace in
  ret (from_id (Some object_id)).

(** Modelled from the spec: [_Stub.deploy] of [modal/stub.py], which is
    outside the files covered here.  The deployment of the throwaway
    application is one call that leaves the session; it succeeds or
    raises. *)
Definition deploy (app_name : string) (bp : list (string * LocalUUID)) : M unit :=
  let* s := get in
  emit (EvDeploy app_name bp) ;;
  match srv_deploy server (events s) app_name bp with
  | Some e => raise e
  | None => ret tt
  end.

(** An RPC that a creation coroutine awaits: its failure is raised inside
    the coroutine, which sees it as a value. *)
Definition rpc (request : string) : M (Error + string) :=
  let* s := get in
  emit (EvRpc request) ;;
  ret (srv_rpc server (events s) request).

(** Modelled from the spec: [intercept_coro] of [modal_utils.async_utils],
    which is outside the files covered here.  Every awaited [Object] goes
    to the interceptor and its result is sent back into the coroutine; an
    exception of the interceptor ends the run. *)
Fixpoint intercept_coro (interceptor : LocalUUID -> M (option ObjectID))
         (coro : Coro) : M (option ObjectID) :=
  match coro with
  | CoReturn object_id => ret object_id
  | CoAwaitObject awaitable k =>
      let* value_to_send := interceptor awaitable in
      intercept_coro interceptor (k value_to_send)
  | CoAwaitRpc request k =>
      let* value_to_send := rpc request in
      intercept_coro interceptor (k value_to_send)
  | CoRaise e => raise e
  end.

Definition object_id_eqb (a b : option ObjectID) : bool :=
  match a, b with
  | Some x, Some y => String.eqb x y
  | None, None => true
  | _, _ => false
  end.

(** [_App.load(obj, progress, existing_object_id)].  The progress tree
    only decorates the terminal and is left out. *)
Fixpoint load (fuel : nat) (obj : LocalUUID) (existing_object_id : option ObjectID)
  : M (option ObjectID) :=
  match fuel with
  | O => fun s => (OutOfFuel, s)
  | S fuel =>
    let* s := get in
    match _local_uuid_to_object_id s !! obj with
    | Some cached =>
        (* We already created this object before, shortcut this method *)
        ret cached
    | None =>
      let* o := deref obj in
      let* object_id :=
        match o with
        | Ref app_name tag namespace definition =>
            match app_name with
            | Some app_name =>
                (match definition with
                 | Some d => deploy app_name [("_object", d)]
                 | None => ret tt
                 end) ;;
                (* A different app *)
                let* object_id := _lookup_to_id app_name tag namespace in
                ret (Some object_id)
            | None =>
                match definition with
                | Some _ => raise AssertionError
                | None =>
                    (* Same app *)
                    let* s := get in
                    match _tag_to_object s !! tag with
                    | Some h => ret (object_id h)
                    | None =>
                        let* real_obj := blueprint_getitem tag in
                        let* s := get in
                        let existing_object_id := _tag_to_existing_id s !! tag in
                        let* object_id := load fuel real_obj existing_object_id in
                        set_tag_to_object tag (from_id object_id) ;;
                        ret object_id
                    end
                end
            end
        | Definition_ _load =>
            emit (EvLoad obj existing_object_id) ;;
            let* object_id :=
              intercept_coro (fun awaitable => load fuel awaitable None)
                             (_load _app_id existing_object_id) in
            match existing_object_id with
            | Some existing =>
                if negb (object_id_eqb object_id (Some existing))
                   && negb (String.prefix "im-" existing)
                then raise (ExistingIdMismatch existing object_id)
                else ret object_id
            | None => ret object_id
            end
        end in
      set_local_uuid_to_object_id obj object_id ;;
      match object_id with
      | None => raise ObjectIdIsNone
      | Some _ => ret object_id
      end
    end
  end.

(** Modelled from the spec: [ref] of [modal/object.py], which is outside
    the files covered here: [ref(app_name, tag)] builds a new [Ref] in the
    default namespace without an embedded definition. *)
Definition ref (app_name : option string) (tag : string) : M LocalUUID :=
  new_object (Ref app_name tag DEPLOYMENT_NAMESPACE_ACCOUNT None).

(** [for tag in self._app._blueprint.keys(): await self.load(ref(None, tag), progress)] *)
Fixpoint load_tags (fuel : nat) (tags : list string) : M unit :=
  match tags with
  | [] => ret tt
  | tag :: tags' =>
      let* obj := ref None tag in
      load fuel obj None ;;
      load_tags fuel tags'
  end.

Definition AppSetObjects (object_ids : gmap string (option ObjectID)) : M unit :=
  let* s := get in
  emit (EvAppSetObjects _app_id object_ids client_id) ;;
  match srv_set_objects server (events s) _app_id object_ids client_id with
  | Some e => raise e
  | None => ret tt
  end.

(** [_App.create_all_objects(progress)].  Its last loop,
    [obj.set_local_app(self)] on the functions of the blueprint, touches
    neither the dictionaries of the session nor the server and is left
    out. *)
Definition create_all_objects (fuel : nat) : M unit :=
  load_tags fuel (map fst _blueprint) ;;
  let* s := get in
  let object_ids := object_id <$> _tag_to_object s in
  AppSetObjects object_ids.

End App.

Arguments load _blueprint _app_id server fuel obj existing_object_id : rename.

(** Lines 137-142 of [load]: the id is stored before it is checked. *)
Definition store_and_return (obj : LocalUUID) (object_id : option ObjectID) (s : State)
  : Res (option ObjectID) * State :=
  (match object_id with
   | None => Raised ObjectIdIsNone
   | Some _ => Returned object_id
   end, memoize obj object_id s).

(** The reconciliation of lines 126-135 on the id that [_load] gave: the
    exception to raise, if any. *)
Definition reconcile (existing_object_id object_id : option ObjectID) : option Error :=
  match existing_object_id with
  | Some existing =>
      if negb (object_id_eqb object_id (Some existing))
         && negb (String.prefix "im-" existing)
      then Some (ExistingIdMismatch existing object_id)
      else None
  | None => None
  end.

(** ** Observations on the log *)

Definition is_load_of (u : LocalUUID) (e : Event) : bool :=
  match e with
  | EvLoad obj _ => Nat.eqb obj u
  | _ => false
  end.

Definition is_set_objects (e : Event) : bool :=
  match e with
  | EvAppSetObjects _ _ _ => true
  | _ => false
  end.

(** How often the creation logic of [u] was started, and how many bulk
    registrations were sent. *)
Definition count_loads (u : LocalUUID) (evs : list Event) : nat :=
  length (List.filter (is_load_of u) evs).

Definition count_set_objects (evs : list Event) : nat :=
  length (List.filter is_set_objects evs).

(** ** Later states of a session *)

(** The events a [load] may add from state [s] on: creation logic only of
    objects that [s] has not memoized, and no bulk registration. *)
Definition load_event (s : State) (e : Event) : Prop :=
  match e with
  | EvLoad obj _ => _local_uuid_to_object_id s !! obj = None
  | EvAppSetObjects _ _ _ => False
  | _ => True
  end.

(** Every memoized [local_uuid] belongs to an object. *)
Definition memo_valid (s : State) : Prop :=
  forall u, is_Some (_local_uuid_to_object_id s !! u) -> u < length (objects s).

(** [s'] comes after [s] in a session over the blueprint [bp]: nothing is
    forgotten or overwritten. *)
Record later (bp : list (string * LocalUUID)) (s s' : State) : Prop := {
  later_objects : objects s `prefix_of` objects s';
  later_events : exists evs, events s' = events s ++ evs /\ Forall (load_event s) evs;
  later_tag_to_object : _tag_to_object s ⊆ _tag_to_object s';
  later_new_tags : forall t, _tag_to_object s !! t = None ->
                             is_Some (_tag_to_object s' !! t) ->
                             is_Some (blueprint_get bp t);
  later_existing : _tag_to_existing_id s' = _tag_to_existing_id s;
  later_memo : _local_uuid_to_object_id s ⊆ _local_uuid_to_object_id s';
  later_valid : memo_valid s -> memo_valid s'
}.

(** ** Acyclic dependencies *)

(** Every object that the coroutine may await has a rank below [n]. *)
Inductive awaits_below (rank : LocalUUID -> nat) (n : nat) : Coro -> Prop :=
| awaits_return object_id : awaits_below rank n (CoReturn object_id)
| awaits_object awaitable k :
    rank awaitable < n -> (forall v, awaits_below rank n (k v)) ->
    awaits_below rank n (CoAwaitObject awaitable k)
| awaits_rpc request k :
    (forall v, awaits_below rank n (k v)) -> awaits_below rank n (CoAwaitRpc request k)
| awaits_raise e : awaits_below rank n (CoRaise e).

(** The blueprint is a DAG: [rank] goes down along every dependency, from a
    definition to what its [_load] awaits and from a reference of the
    application to the definition under its tag. *)
Definition acyclic (bp : list (string * LocalUUID)) (objs : list Object)
           (rank : LocalUUID -> nat) : Prop :=
  forall u o, objs !! u = Some o ->
    match o with
    | Definition_ _load =>
        forall app_id existing, awaits_below rank (rank u) (_load app_id existing)
    | Ref None tag _ _ =>
        forall d, blueprint_get bp tag = Some d -> rank d < rank u
    | Ref (Some _) _ _ _ => True
    end.

Definition rank_below (rank : LocalUUID -> nat) (n : nat) (e : Event) : Prop :=
  match e with
  | EvLoad obj _ => rank obj < n
  | _ => True
  end.

(** From [s] to [s'] the objects are the same and creation logic was
    started only for objects of rank below [n]. *)
Definition ranked (rank : LocalUUID -> nat) (n : nat) (s s' : State) : Prop :=
  objects s' = objects s /\
  exists evs, events s' = events s ++ evs /\ Forall (rank_below rank n) evs.

(** Modelled from the spec: creation logic that requests the objects it
    depends on, one after the other, before it goes on as [k] (its
    creation call).  The [_load] methods of the object kinds are outside
    the files covered here. *)
Fixpoint await_all (dependencies : list LocalUUID) (k : Coro) : Coro :=
  match dependencies with
  | [] => k
  | dependency :: dependencies' =>
      CoAwaitObject dependency (fun _ => await_all dependencies' k)
  end.

(** ** A concrete session *)

Module Scenario.

(** A server that names an object after the request that creates it, is
    down for the request [boom], deploys everything, and knows the
    objects of the application [X] only. *)
Definition server : Server := {|
  srv_rpc := fun _ request =>
    if String.eqb request "boom" then inl (RemoteError "down")
    else inr ("ob-" +:+ request);
  srv_deploy := fun _ _ _ => None;
  srv_lookup := fun _ app_name tag _ =>
    inr {| resp_object_id := if String.eqb app_name "X" then "qu-1" else "";
           resp_error_message := "no such object" |};
  srv_set_objects := fun _ _ _ _ => None
|}.

(** A definition without dependencies: one creation call. *)
Definition create (request : string) : Coro :=
  CoAwaitRpc request (fun reply =>
    match reply with
    | inr object_id => CoReturn (Some object_id)
    | inl e => CoRaise e
    end).

Definition leaf (request : string) : Object :=
  Definition_ (fun _ _ => create request).

(** A definition that awaits another object before its creation call. *)
Definition dependent (dependency : LocalUUID) (request : string) : Object :=
  Definition_ (fun _ _ => CoAwaitObject dependency (fun _ => create request)).

Definition constant (object_id : option ObjectID) : Object :=
  Definition_ (fun _ _ => CoReturn object_id).

Definition NS : Namespace := DEPLOYMENT_NAMESPACE_ACCOUNT.

Definition store : list Object :=
  [ leaf "a";                          (* 0: the definition of tag a *)
    dependent 3 "b";                   (* 1: tag b, which refers to a *)
    dependent 4 "c";                   (* 2: tag c, which refers to a *)
    Ref None "a" NS None;              (* 3 *)
    Ref None "a" NS None;              (* 4 *)
    Ref (Some "X") "q" NS (Some 6);    (* 5 *)
    leaf "q";                          (* 6 *)
    Ref (Some "Y") "q" NS None;        (* 7 *)
    constant None;                     (* 8 *)
    constant (Some "fn-2");            (* 9 *)
    Ref None "ghost" NS None;          (* 10 *)
    leaf "boom";                       (* 11 *)
    Ref (Some "X") "q" NS None ].      (* 12 *)

Definition blueprint : list (string * LocalUUID) := [("a", 0); ("b", 1); ("c", 2)].


Definition rank (u : LocalUUID) : nat :=
  match u with
  | 1 | 2 => 2
  | 3 | 4 => 1
  | _ => 0
  end.

(** A session as [init_new] makes it. *)
Definition fresh : State := {|
  objects := store; events := [];
  _tag_to_object := ∅; _tag_to_existing_id := ∅;
  _local_uuid_to_object_id := ∅
|}.

(** A session in which the definition of tag a is memoized. *)
Definition memoized : State := memoize 0 (Some "ob-a") fresh.

(** A session as [init_container] makes it, with the tag [ghost] resolved. *)
Definition container : State :=
  with_tag_to_object "ghost" (from_id (Some "ob-1")) fresh.

Definition load' := load blueprint "ap-1" server.

End Scenario.

(** ** The rest of [_App] *)

(** [_App.__getitem__(tag)] and [_App.__getattr__(tag)]:
    [self._tag_to_object[tag]]. *)
Definition __getitem__ (tag : string) : M Handle :=
  let* s := get in
  match _tag_to_object s !! tag with
  | Some h => ret h
  | None => raise (KeyError tag)
  end.

(** An [_App] object: [self._app] (the blueprint of its stub), the
    [client_id] of [self._client], [self._app_id] and the dictionaries.
    The three are [None] in [_App(None, None, None)]. *)
Record _App := {
  _app : option (list (string * LocalUUID));
  _client : option string;
  _app_id : option string;
  _dicts : State
}.

(** [_App.__init__(app, client, app_id, tag_to_object, tag_to_existing_id)],
    in a process that has built the objects [objs] and issued the calls
    [evs] so far.  [d or {}] is [d] unless [d] is [None] or empty. *)
Definition __init__ (objs : list Object) (evs : list Event)
           (app : option (list (string * LocalUUID))) (client app_id : option string)
           (tag_to_object : option (gmap string Handle))
           (tag_to_existing_id : option (gmap string ObjectID)) : _App :=
  {| _app := app; _client := client; _app_id := app_id;
     _dicts := {| objects := objs; events := evs;
                  _tag_to_object := default ∅ tag_to_object;
                  _tag_to_existing_id := default ∅ tag_to_existing_id;
                  _local_uuid_to_object_id := ∅ |} |}.

(** The replies to [AppCreate(client_id, description)] and to
    [AppGetObjects(app_id, task_id)], as functions of the request and of
    what happened before. *)
Record Registry := {
  reg_app_create : list Event -> string -> string -> Error + string;
  reg_app_get_objects : list Event -> string -> option string ->
                        Error + gmap string ObjectID
}.

(** [_App.init_new(app, client, description)] *)
Definition init_new (registry : Registry) (objs : list Object) (evs : list Event)
           (app : list (string * LocalUUID)) (client description : string)
  : Error + _App :=
  match reg_app_create registry evs client description with
  | inl e => inl e
  | inr app_id => inr (__init__ objs evs (Some app) (Some client) (Some app_id) None None)
  end.

(** [_App.init_existing(app, client, existing_app_id)] *)
Definition init_existing (registry : Registry) (objs : list Object) (evs : list Event)
           (app : list (string * LocalUUID)) (client existing_app_id : string)
  : Error + _App :=
  match reg_app_get_objects registry evs existing_app_id None with
  | inl e => inl e
  | inr object_ids =>
      inr (__init__ objs evs (Some app) (Some client) (Some existing_app_id)
                    None (Some object_ids))
  end.

(** The globals of the module: [_is_container_app] and [_container_app]. *)
Record Globals := {
  _is_container_app : bool;
  _container_app : _App
}.

(** The module as it is after import: [_is_container_app = False] and
    [_container_app = _App(None, None, None)]. *)
Definition imported (objs : list Object) (evs : list Event) : Globals :=
  {| _is_container_app := false;
     _container_app := __init__ objs evs None None None None None |}.

(** [for tag, object_id in resp.object_ids.items():
      self._tag_to_object[tag] = Object.from_id(object_id, self._client)] *)
Definition store_objects (object_ids : gmap string ObjectID) (s : State) : State :=
  map_fold (fun tag object_id acc => with_tag_to_object tag (from_id (Some object_id)) acc)
           s object_ids.

(** [_App.init_container(client, app_id, task_id)]: the result ([self], or
    the exception of the call) and the globals it leaves. *)
Definition init_container (registry : Registry) (client app_id task_id : string)
           (g : Globals) : (Error + _App) * Globals :=
  let self := _container_app g in
  let self := {| _app := _app self; _client := Some client; _app_id := Some app_id;
                 _dicts := _dicts self |} in
  match reg_app_get_objects registry (events (_dicts self)) app_id (Some task_id) with
  | inl e => (inl e, {| _is_container_app := true; _container_app := self |})
  | inr object_ids =>
      let self := {| _app := _app self; _client := _client self; _app_id := _app_id self;
                     _dicts := store_objects object_ids (_dicts self) |} in
      (inr self, {| _is_container_app := true; _container_app := self |})
  end.

(** [_App.reset_container()] *)
Definition reset_container (g : Globals) : Globals :=
  {| _is_container_app := false; _container_app := _container_app g |}.

(** [is_local()] *)
Definition is_local (g : Globals) : bool := negb (_is_container_app g).

(** ** More invariants of a session *)

(** No dictionary holds [None] for an id. *)
Definition no_none (s : State) : Prop :=
  (forall u, _local_uuid_to_object_id s !! u <> Some None) /\
  (forall t h, _tag_to_object s !! t = Some h -> object_id h <> None).

(** An existing id handed to creation logic is the one that
    [tag_to_existing_id] has for a tag of the blueprint that names the
    object. *)
Definition existing_of_tag (bp : list (string * LocalUUID))
           (tag_to_existing_id : gmap string ObjectID)
           (obj : LocalUUID) (existing_object_id : option ObjectID) : Prop :=
  match existing_object_id with
  | Some existing =>
      exists tag, blueprint_get bp tag = Some obj /\
                  tag_to_existing_id !! tag = Some existing
  | None => True
  end.

Definition existing_event (bp : list (string * LocalUUID))
           (tag_to_existing_id : gmap string ObjectID) (e : Event) : Prop :=
  match e with
  | EvLoad obj existing_object_id =>
      existing_of_tag bp tag_to_existing_id obj existing_object_id
  | _ => True
  end.

(** From [s] to [s'] the objects are the same, an object was memoized only
    if its rank is below [n], and a tag was resolved only if the rank of
    its definition is below [n - 1]. *)
Definition settled_below (bp : list (string * LocalUUID)) (rank : LocalUUID -> nat)
           (n : nat) (s s' : State) : Prop :=
  objects s' = objects s /\
  (forall u, _local_uuid_to_object_id s !! u = None ->
             is_Some (_local_uuid_to_object_id s' !! u) -> rank u < n) /\
  (forall t, _tag_to_object s !! t = None -> is_Some (_tag_to_object s' !! t) ->
             exists d, blueprint_get bp t = Some d /\ S (rank d) < n).

(** From [s] to [s'] [_tag_to_existing_id] is the same and every creation
    logic that was started got an existing id of its tag, or none. *)
Definition existing_trace (bp : list (string * LocalUUID)) (s s' : State) : Prop :=
  _tag_to_existing_id s' = _tag_to_existing_id s /\
  exists evs, events s' = events s ++ evs /\
              Forall (existing_event bp (_tag_to_existing_id s)) evs.

(** ** A concrete deployment *)

Module Deployment.
Import Scenario.

(** A registry that knows the application [ap-1], with the object of tag
    a from an earlier deployment. *)
Definition registry : Registry := {|
  reg_app_create := fun _ _ _ => inr "ap-1";
  reg_app_get_objects := fun _ app_id _ =>
    if String.eqb app_id "ap-1" then inr (<["a" := "ob-a"]> ∅)
    else inl (RemoteError "no such app")
|}.

(** A server on which nothing can be deployed. *)
Definition closed_server : Server := {|
  srv_rpc := srv_rpc server;
  srv_deploy := fun _ _ _ => Some (RemoteError "down");
  srv_lookup := srv_lookup server;
  srv_set_objects := srv_set_objects server
|}.

(** The session of a redeployment: tag a had the id [ob-a]. *)
Definition redeployed : State := {|
  objects := store; events := [];
  _tag_to_object := ∅; _tag_to_existing_id := <["a" := "ob-a"]> ∅;
  _local_uuid_to_object_id := ∅
|}.

Definition create_all_objects' :=
  create_all_objects blueprint "ap-1" "cl-1" server.

End Deployment.

(** ** Creation logic that calls before it awaits *)

Module Eager.
Import Scenario.

(** A definition that sends its creation call first and only then awaits
    the object it depends on. *)
Definition eager (dependency : LocalUUID) (request : string) : Object :=
  Definition_ (fun _ _ =>
    CoAwaitRpc request (fun reply =>
      CoAwaitObject dependency (fun _ =>
        match reply with
        | inr object_id => CoReturn (Some object_id)
        | inl e => CoRaise e
        end))).

Definition eager_store : list Object :=
  [ leaf "a";                (* 0: the definition of tag a *)
    eager 2 "b";             (* 1: tag b, which refers to a *)
    Ref None "a" NS None ].  (* 2 *)

Definition eager_blueprint : list (string * LocalUUID) := [("a", 0); ("b", 1)].

Definition eager_session : State := {|
  objects := eager_store; events := [];
  _tag_to_object := ∅; _tag_to_existing_id := ∅;
  _local_uuid_to_object_id := ∅
|}.

End Eager.

(** ** Reasoning about runs *)

Definition wp {A} (m : M A) (s : State) (Q : Res A -> State -> Prop) : Prop :=
  Q (m s).1 (m s).2.

Lemma wp_run {A} (m : M A) s Q r s' : wp m s Q -> m s = (r, s') -> Q r s'.
Proof. unfold wp. intros H E. rewrite E in H. exact H. Qed.

Lemma wp_bind {A B} (m : M A) (f : A -> M B) s (Q : Res B -> State -> Prop) :
  wp m s (fun r s1 =>
            match r with
            | Returned a => wp (f a) s1 Q
            | Raised e => Q (Raised e) s1
            | Dangling => Q Dangling s1
            | OutOfFuel => Q OutOfFuel s1
            end) ->
  wp (bind m f) s Q.
Proof. unfold wp, bind. destruct (m s) as [[a|e| |] s1]; simpl; auto. Qed.

Lemma bind_assoc {A B C} (m : M A) (f : A -> M B) (g : B -> M C) s :
  bind (bind m f) g s = bind m (fun a => bind (f a) g) s.
Proof. unfold bind. destruct (m s) as [[a|e| |] s1]; reflexivity. Qed.

Lemma bind_ext {A B} (m : M A) (f g : A -> M B) s :
  (forall a s1, f a s1 = g a s1) -> bind m f s = bind m g s.
Proof. intros H. unfold bind. destruct (m s) as [[a|e| |] s1]; auto. Qed.

(** ** [later] is a preorder, and each update moves forward *)

Lemma later_refl bp s : later bp s s.
Proof.
  split; try done.
  - exists []. rewrite app_nil_r. split; [done|constructor].
  - intros t Hn [h Hs]. congruence.
Qed.

Lemma load_event_mono s s' e :
  _local_uuid_to_object_id s ⊆ _local_uuid_to_object_id s' ->
  load_event s' e -> load_event s e.
Proof.
  intros Hsub. destruct e; simpl; auto.
  intros Hn. destruct (_local_uuid_to_object_id s !! obj) eqn:E; [|done].
  eapply lookup_weaken in E; [|exact Hsub]. congruence.
Qed.

Lemma later_trans bp s1 s2 s3 : later bp s1 s2 -> later bp s2 s3 -> later bp s1 s3.
Proof.
  intros [O1 [e1 [E1 F1]] T1 N1 X1 C1 V1] [O2 [e2 [E2 F2]] T2 N2 X2 C2 V2].
  split.
  - etransitivity; eassumption.
  - exists (e1 ++ e2). rewrite E2, E1, <- app_assoc. split; [done|].
    apply Forall_app. split; [done|].
    eapply Forall_impl; [exact F2|]. intros e. by apply load_event_mono.
  - etransitivity; eassumption.
  - intros t Hn Hs.
    destruct (_tag_to_object s2 !! t) eqn:E; [apply N1; eauto|apply N2; auto].
  - congruence.
  - etransitivity; eassumption.
  - auto.
Qed.

Lemma later_log_event bp s e : load_event s e -> later bp s (log_event e s).
Proof.
  intros He. split; simpl; try done.
  - exists [e]. split; [done|]. by constructor.
  - intros t Hn [h Hs]. congruence.
Qed.

Lemma later_memoize bp s s1 u v :
  later bp s s1 ->
  _local_uuid_to_object_id s !! u = None -> u < length (objects s) ->
  later bp s (memoize u v s1).
Proof.
  intros [O1 [e1 [E1 F1]] T1 N1 X1 C1 V1] Hn Hu. split; simpl; try done.
  - exists e1. done.
  - apply map_subseteq_spec. intros w x Hw.
    assert (w <> u) by congruence.
    rewrite lookup_insert_ne by done. eapply lookup_weaken; eassumption.
  - intros Hv w Hw. unfold memoize in *; simpl in *.
    destruct (decide (w = u)) as [->|Hne].
    + apply prefix_length in O1. lia.
    + rewrite lookup_insert_ne in Hw by done. by apply V1.
Qed.

Lemma later_with_tag_to_object bp s s1 tag h :
  later bp s s1 ->
  _tag_to_object s !! tag = None -> is_Some (blueprint_get bp tag) ->
  later bp s (with_tag_to_object tag h s1).
Proof.
  intros [O1 [e1 [E1 F1]] T1 N1 X1 C1 V1] Hn Hb. split; simpl; try done.
  - exists e1. done.
  - apply map_subseteq_spec. intros w x Hw.
    assert (w <> tag) by congruence.
    rewrite lookup_insert_ne by done. eapply lookup_weaken; eassumption.
  - intros t Ht Hs. destruct (decide (t = tag)) as [->|Hne]; [done|].
    rewrite lookup_insert_ne in Hs by done. auto.
Qed.

Lemma later_alloc bp s o : later bp s (alloc o s).
Proof.
  split; simpl; try done.
  - by apply prefix_app_r.
  - exists []. rewrite app_nil_r. split; [done|constructor].
  - intros t Ht [h Hs]. congruence.
  - intros Hv w Hw. specialize (Hv w Hw). simpl. rewrite length_app. simpl. lia.
Qed.

Lemma count_loads_app u evs evs' :
  count_loads u (evs ++ evs') = count_loads u evs + count_loads u evs'.
Proof. unfold count_loads. by rewrite List.filter_app, length_app. Qed.

Lemma count_set_objects_app evs evs' :
  count_set_objects (evs ++ evs') = count_set_objects evs + count_set_objects evs'.
Proof. unfold count_set_objects. by rewrite List.filter_app, length_app. Qed.

Lemma later_count_loads bp s s' u :
  later bp s s' -> is_Some (_local_uuid_to_object_id s !! u) ->
  count_loads u (events s') = count_loads u (events s).
Proof.
  intros [_ [evs [-> F]] _ _ _ _ _] [v Hu]. rewrite count_loads_app.
  assert (count_loads u evs = 0) as ->; [|lia].
  induction F as [|e evs He _ IH]; [done|].
  unfold count_loads in *. simpl. destruct (is_load_of u e) eqn:E; [|done].
  destruct e; simpl in *; try discriminate.
  apply Nat.eqb_eq in E. subst. congruence.
Qed.

Lemma later_count_set_objects bp s s' :
  later bp s s' -> count_set_objects (events s') = count_set_objects (events s).
Proof.
  intros [_ [evs [-> F]] _ _ _ _ _]. rewrite count_set_objects_app.
  assert (count_set_objects evs = 0) as ->; [|lia].
  induction F as [|e evs He _ IH]; [done|].
  unfold count_set_objects in *. simpl. by destruct e.
Qed.

(** ** Every run moves the session forward *)

Section Session.

Variable bp : list (string * LocalUUID).
Variable app_id : string.
Variable client_id : string.
Variable server : Server.

Abbreviation load_ := (load bp app_id server).
Abbreviation forward s := (fun (_ : Res _) s' => later bp s s').

Lemma wp_forward_bind {A B} (m : M A) (f : A -> M B) s0 s :
  later bp s0 s ->
  wp m s (forward s) ->
  (forall a s1, later bp s0 s1 -> wp (f a) s1 (forward s0)) ->
  wp (bind m f) s (forward s0).
Proof.
  intros H0 Hm Hf. unfold wp, bind in *.
  destruct (m s) as [[a|e| |] s1]; simpl in *;
    try (eapply later_trans; eassumption).
  apply Hf. eapply later_trans; eassumption.
Qed.

Lemma emit_forward s e : load_event s e -> wp (emit e) s (forward s).
Proof. intros He. unfold wp, emit; simpl. by apply later_log_event. Qed.

Lemma _lookup_to_id_forward app_name tag namespace s :
  wp (_lookup_to_id server app_name tag namespace) s (forward s).
Proof.
  unfold _lookup_to_id, wp, bind, get, emit; simpl.
  destruct (srv_lookup _ _ _ _ _) as [e|response]; simpl;
    [|destruct (String.eqb _ _); simpl]; by apply later_log_event.
Qed.

Lemma deploy_forward app_name b s : wp (deploy server app_name b) s (forward s).
Proof.
  unfold deploy, wp, bind, get, emit; simpl.
  destruct (srv_deploy _ _ _ _); simpl; by apply later_log_event.
Qed.

Lemma rpc_forward request s : wp (rpc server request) s (forward s).
Proof. unfold rpc, wp, bind, get, emit; simpl. by apply later_log_event. Qed.

Lemma wp_forward_weaken {A} (m : M A) s0 s :
  later bp s0 s -> wp m s (forward s) -> wp m s (forward s0).
Proof. unfold wp. intros. eapply later_trans; eassumption. Qed.

Lemma intercept_coro_forward (interceptor : LocalUUID -> M (option ObjectID)) :
  (forall a s, wp (interceptor a) s (forward s)) ->
  forall coro s, wp (intercept_coro server interceptor coro) s (forward s).
Proof.
  intros Hi. induction coro as [v|a k IH|request k IH|e]; intros s; simpl.
  - apply later_refl.
  - apply wp_forward_bind; [apply later_refl|apply Hi|].
    intros v s1 H1. eapply wp_forward_weaken; [exact H1|apply IH].
  - apply wp_forward_bind; [apply later_refl|apply rpc_forward|].
    intros v s1 H1. eapply wp_forward_weaken; [exact H1|apply IH].
  - apply later_refl.
Qed.

(** The state after [load], whatever its outcome, is a later state: no
    entry of a dictionary is dropped or overwritten, creation logic runs
    only for objects that were not memoized, and nothing is registered. *)
Lemma load_forward fuel : forall obj existing s,
  wp (load_ fuel obj existing) s (forward s).
Proof.
  induction fuel as [|fuel IH]; intros obj existing s.
  - apply later_refl.
  - simpl. apply wp_bind. unfold wp at 1, get; simpl.
    destruct (_local_uuid_to_object_id s !! obj) as [cached|] eqn:Hmemo.
    { apply later_refl. }
    apply wp_bind. unfold wp at 1, deref.
    destruct (objects s !! obj) as [o|] eqn:Hobj; simpl; [|apply later_refl].
    assert (Hlt : obj < length (objects s)) by (eapply lookup_lt_Some; eassumption).
    assert (Hfin : forall object_id s1, later bp s s1 ->
              wp (bind (set_local_uuid_to_object_id obj object_id)
                       (fun _ => match object_id with
                                 | None => raise ObjectIdIsNone
                                 | Some _ => ret object_id
                                 end)) s1 (forward s)).
    { intros v s1 H1.
      assert (later bp s (memoize obj v s1))
        by (by apply later_memoize).
      unfold wp, bind, set_local_uuid_to_object_id; simpl. by destruct v. }
    apply wp_forward_bind; [apply later_refl| |intros; by apply Hfin].
    destruct o as [_load|app_name tag namespace definition].
    + (* a definition *)
      apply wp_forward_bind; [apply later_refl|by apply emit_forward|].
      intros _ s1 H1. eapply wp_forward_weaken; [exact H1|].
      apply wp_forward_bind; [apply later_refl| |].
      * apply intercept_coro_forward. intros a s2. apply IH.
      * intros v s2 H2. unfold wp.
        destruct existing as [ex|]; [|apply H2].
        destruct (negb _ && negb _); apply H2.
    + destruct app_name as [app_name|].
      * (* a different app *)
        apply wp_forward_bind; [apply later_refl| |].
        { destruct definition; [apply deploy_forward|apply later_refl]. }
        intros _ s1 H1. eapply wp_forward_weaken; [exact H1|].
        apply wp_forward_bind; [apply later_refl|apply _lookup_to_id_forward|].
        intros v s2 H2. apply H2.
      * (* same app *)
        destruct definition; [apply later_refl|].
        apply wp_bind. unfold wp at 1, get; simpl.
        destruct (_tag_to_object s !! tag) as [h|] eqn:Htag; [apply later_refl|].
        apply wp_bind. unfold wp at 1, blueprint_getitem.
        destruct (blueprint_get bp tag) as [real_obj|] eqn:Hbp; simpl;
          [|apply later_refl].
        apply wp_bind. unfold wp at 1, get; simpl.
        apply wp_forward_bind; [apply later_refl|apply IH|].
        intros v s1 H1. unfold wp, bind, set_tag_to_object; simpl.
        apply later_with_tag_to_object; eauto.
Qed.

Lemma load_later fuel obj existing s r s' :
  load_ fuel obj existing s = (r, s') -> later bp s s'.
Proof. intros E. exact (wp_run _ _ _ _ _ (load_forward fuel obj existing s) E). Qed.

Lemma load_tags_forward fuel tags : forall s,
  wp (load_tags bp app_id server fuel tags) s (forward s).
Proof.
  induction tags as [|tag tags IH]; intros s; simpl; [apply later_refl|].
  apply wp_forward_bind; [apply later_refl|apply later_alloc|].
  intros obj s1 H1. eapply wp_forward_weaken; [exact H1|].
  apply wp_forward_bind; [apply later_refl|apply load_forward|].
  intros _ s2 H2. eapply wp_forward_weaken; [exact H2|apply IH].
Qed.

Lemma load_tags_later fuel tags s r s' :
  load_tags bp app_id server fuel tags s = (r, s') -> later bp s s'.
Proof. intros E. exact (wp_run _ _ _ _ _ (load_tags_forward fuel tags s) E). Qed.

(** The steps of [load] on an object that is not memoized. *)
Lemma load_hit fuel obj existing s cached :
  _local_uuid_to_object_id s !! obj = Some cached ->
  load_ (S fuel) obj existing s = (Returned cached, s).
Proof. intros H. simpl. unfold bind, get. by rewrite H. Qed.

Lemma load_cross_app fuel obj existing s app_name tag namespace :
  _local_uuid_to_object_id s !! obj = None ->
  objects s !! obj = Some (Ref (Some app_name) tag namespace None) ->
  load_ (S fuel) obj existing s =
  match _lookup_to_id server app_name tag namespace s with
  | (Returned object_id, s1) => store_and_return obj (Some object_id) s1
  | (Raised e, s1) => (Raised e, s1)
  | (Dangling, s1) => (Dangling, s1)
  | (OutOfFuel, s1) => (OutOfFuel, s1)
  end.
Proof.
  intros Hm Ho. simpl. unfold bind at 1, get. rewrite Hm.
  unfold bind at 1, deref. rewrite Ho.
  unfold bind at 1. unfold bind at 1. unfold ret at 1. unfold bind at 1.
  destruct (_lookup_to_id _ _ _ _ s) as [[v|e| |] s1]; reflexivity.
Qed.

Lemma load_cross_app_deploy fuel obj existing s app_name tag namespace d :
  _local_uuid_to_object_id s !! obj = None ->
  objects s !! obj = Some (Ref (Some app_name) tag namespace (Some d)) ->
  load_ (S fuel) obj existing s =
  match deploy server app_name [("_object", d)] s with
  | (Returned _, s0) =>
      match _lookup_to_id server app_name tag namespace s0 with
      | (Returned object_id, s1) => store_and_return obj (Some object_id) s1
      | (Raised e, s1) => (Raised e, s1)
      | (Dangling, s1) => (Dangling, s1)
      | (OutOfFuel, s1) => (OutOfFuel, s1)
      end
  | (Raised e, s0) => (Raised e, s0)
  | (Dangling, s0) => (Dangling, s0)
  | (OutOfFuel, s0) => (OutOfFuel, s0)
  end.
Proof.
  intros Hm Ho. simpl. unfold bind at 1, get. rewrite Hm.
  unfold bind at 1, deref. rewrite Ho.
  unfold bind at 1. unfold bind at 1.
  destruct (deploy _ _ _ s) as [[v|e| |] s0]; try reflexivity.
  unfold bind at 1.
  destruct (_lookup_to_id _ _ _ _ s0) as [[v'|e| |] s1]; reflexivity.
Qed.

Lemma load_same_app_resolved fuel obj existing s tag namespace h :
  _local_uuid_to_object_id s !! obj = None ->
  objects s !! obj = Some (Ref None tag namespace None) ->
  _tag_to_object s !! tag = Some h ->
  load_ (S fuel) obj existing s = store_and_return obj (object_id h) s.
Proof.
  intros Hm Ho Ht. simpl. unfold bind at 1, get. rewrite Hm.
  unfold bind at 1, deref. rewrite Ho.
  unfold bind at 1. unfold bind at 1. rewrite Ht.
  unfold store_and_return. by destruct (object_id h).
Qed.

Lemma load_same_app_unknown fuel obj existing s tag namespace :
  _local_uuid_to_object_id s !! obj = None ->
  objects s !! obj = Some (Ref None tag namespace None) ->
  _tag_to_object s !! tag = None ->
  blueprint_get bp tag = None ->
  load_ (S fuel) obj existing s = (Raised (KeyError tag), s).
Proof.
  intros Hm Ho Ht Hb. simpl. unfold bind at 1, get. rewrite Hm.
  unfold bind at 1, deref. rewrite Ho.
  unfold bind at 1. unfold bind at 1. rewrite Ht.
  unfold bind at 1, blueprint_getitem. by rewrite Hb.
Qed.

Lemma load_same_app_fetch fuel obj existing s tag namespace real_obj :
  _local_uuid_to_object_id s !! obj = None ->
  objects s !! obj = Some (Ref None tag namespace None) ->
  _tag_to_object s !! tag = None ->
  blueprint_get bp tag = Some real_obj ->
  load_ (S fuel) obj existing s =
  match load_ fuel real_obj (_tag_to_existing_id s !! tag) s with
  | (Returned object_id, s1) =>
      store_and_return obj object_id (with_tag_to_object tag (from_id object_id) s1)
  | (Raised e, s1) => (Raised e, s1)
  | (Dangling, s1) => (Dangling, s1)
  | (OutOfFuel, s1) => (OutOfFuel, s1)
  end.
Proof.
  intros Hm Ho Ht Hb. simpl. unfold bind at 1, get. rewrite Hm.
  unfold bind at 1, deref. rewrite Ho.
  unfold bind at 1. unfold bind at 1. rewrite Ht.
  unfold bind at 1, blueprint_getitem. rewrite Hb. unfold ret at 1.
  unfold bind at 1. unfold bind at 1.
  destruct (load _ _ _ fuel real_obj _ s) as [[v|e| |] s1]; try reflexivity.
  unfold bind, set_tag_to_object, store_and_return, ret. by destruct v.
Qed.

Lemma load_definition fuel obj existing s _load :
  _local_uuid_to_object_id s !! obj = None ->
  objects s !! obj = Some (Definition_ _load) ->
  load_ (S fuel) obj existing s =
  match intercept_coro server (fun awaitable => load_ fuel awaitable None)
                       (_load app_id existing)
                       (log_event (EvLoad obj existing) s) with
  | (Returned object_id, s1) =>
      match reconcile existing object_id with
      | Some e => (Raised e, s1)
      | None => store_and_return obj object_id s1
      end
  | (Raised e, s1) => (Raised e, s1)
  | (Dangling, s1) => (Dangling, s1)
  | (OutOfFuel, s1) => (OutOfFuel, s1)
  end.
Proof.
  intros Hm Ho. simpl. unfold bind at 1, get. rewrite Hm.
  unfold bind at 1, deref. rewrite Ho.
  unfold bind at 1. unfold bind at 1. unfold emit at 1.
  unfold bind at 1.
  destruct (intercept_coro _ _ _ _) as [[v|e| |] s1]; try reflexivity.
  unfold reconcile, store_and_return.
  destruct existing as [ex|].
  - destruct (negb _ && negb _); [reflexivity|].
    unfold ret at 1. unfold bind, set_local_uuid_to_object_id. by destruct v.
  - unfold ret at 1. unfold bind, set_local_uuid_to_object_id. by destruct v.
Qed.

Lemma load_same_app_definition fuel obj existing s tag namespace d :
  _local_uuid_to_object_id s !! obj = None ->
  objects s !! obj = Some (Ref None tag namespace (Some d)) ->
  load_ (S fuel) obj existing s = (Raised AssertionError, s).
Proof.
  intros Hm Ho. simpl. unfold bind at 1, get. rewrite Hm.
  unfold bind at 1, deref. by rewrite Ho.
Qed.

Lemma load_dangling fuel obj existing s :
  _local_uuid_to_object_id s !! obj = None ->
  objects s !! obj = None ->
  load_ (S fuel) obj existing s = (Dangling, s).
Proof.
  intros Hm Ho. simpl. unfold bind at 1, get. rewrite Hm.
  unfold bind at 1, deref. by rewrite Ho.
Qed.

Ltac stored E :=
  unfold store_and_return in E;
  try match type of E with
      | (match ?w with _ => _ end, _) = _ => destruct w
      end;
  inversion E; subst;
  split; [simpl; apply lookup_insert_eq | eauto].

(** When [load] returns, the object is memoized with the value returned,
    and that value is an id unless it came out of the cache. *)
Lemma load_returned fuel obj existing s v s' :
  load_ fuel obj existing s = (Returned v, s') ->
  _local_uuid_to_object_id s' !! obj = Some v /\
  (_local_uuid_to_object_id s !! obj = None -> is_Some v).
Proof.
  destruct fuel as [|fuel]; [discriminate|].
  destruct (_local_uuid_to_object_id s !! obj) as [cached|] eqn:Hm.
  { rewrite (load_hit _ _ _ _ _ Hm). intros [= <- <-]. split; [done|congruence]. }
  destruct (objects s !! obj) as [o|] eqn:Ho;
    [|rewrite load_dangling by done; discriminate].
  destruct o as [_load|[app_name|] tag namespace [d|]].
  - rewrite (load_definition _ _ _ _ _ Hm Ho).
    destruct (intercept_coro _ _ _ _) as [[w|e| |] s1]; try discriminate.
    destruct (reconcile existing w); [discriminate|]. intros E. stored E.
  - rewrite (load_cross_app_deploy _ _ _ _ _ _ _ _ Hm Ho).
    destruct (deploy _ _ _ s) as [[w|e| |] s0]; try discriminate.
    destruct (_lookup_to_id _ _ _ _ s0) as [[w'|e| |] s1]; try discriminate.
    intros E. stored E.
  - rewrite (load_cross_app _ _ _ _ _ _ _ Hm Ho).
    destruct (_lookup_to_id _ _ _ _ s) as [[w'|e| |] s1]; try discriminate.
    intros E. stored E.
  - rewrite (load_same_app_definition _ _ _ _ _ _ _ Hm Ho). discriminate.
  - destruct (_tag_to_object s !! tag) as [h|] eqn:Ht.
    + rewrite (load_same_app_resolved _ _ _ _ _ _ _ Hm Ho Ht).
      intros E. stored E.
    + destruct (blueprint_get bp tag) as [real_obj|] eqn:Hb.
      * rewrite (load_same_app_fetch _ _ _ _ _ _ _ Hm Ho Ht Hb).
        destruct (load _ _ _ fuel real_obj _ s) as [[w|e| |] s1]; try discriminate.
        intros E. stored E.
      * rewrite (load_same_app_unknown _ _ _ _ _ _ Hm Ho Ht Hb). discriminate.
Qed.

(** A successful [load] of a same-application [Ref] leaves its tag resolved
    to the value returned. *)
Lemma load_same_app_resolves fuel obj existing s tag namespace v s' :
  _local_uuid_to_object_id s !! obj = None ->
  objects s !! obj = Some (Ref None tag namespace None) ->
  load_ fuel obj existing s = (Returned v, s') ->
  exists h, _tag_to_object s' !! tag = Some h /\ object_id h = v.
Proof.
  intros Hm Ho. destruct fuel as [|fuel]; [discriminate|].
  destruct (_tag_to_object s !! tag) as [h|] eqn:Ht.
  - rewrite (load_same_app_resolved _ _ _ _ _ _ _ Hm Ho Ht).
    unfold store_and_return. intros E. exists h.
    destruct (object_id h); inversion E; subst; simpl; by rewrite Ht.
  - destruct (blueprint_get bp tag) as [real_obj|] eqn:Hb.
    + rewrite (load_same_app_fetch _ _ _ _ _ _ _ Hm Ho Ht Hb).
      destruct (load _ _ _ fuel real_obj _ s) as [[w|e| |] s1]; try discriminate.
      unfold store_and_return. intros E. exists (from_id w).
      destruct w; inversion E; subst; simpl; by rewrite lookup_insert_eq.
    + rewrite (load_same_app_unknown _ _ _ _ _ _ Hm Ho Ht Hb). discriminate.
Qed.

Lemma blueprint_get_is_Some tag : is_Some (blueprint_get bp tag) <-> tag ∈ map fst bp.
Proof.
  induction bp as [|[t o] bp' IH]; simpl.
  - split; [by intros [? ?]|by intros ?%elem_of_nil].
  - rewrite elem_of_cons. destruct (String.eqb t tag) eqn:Et.
    + apply String.eqb_eq in Et. subst. split; eauto.
    + apply String.eqb_neq in Et. rewrite IH. split; [by right|].
      intros [->|?]; done.
Qed.

Lemma load_tags_app fuel pre post s :
  load_tags bp app_id server fuel (pre ++ post) s =
  bind (load_tags bp app_id server fuel pre)
       (fun _ => load_tags bp app_id server fuel post) s.
Proof.
  revert s. induction pre as [|tag pre IH]; intros s; [reflexivity|].
  simpl. rewrite bind_assoc. apply bind_ext. intros obj s1.
  rewrite bind_assoc. apply bind_ext. intros _ s2. apply IH.
Qed.

(** After the loop of [create_all_objects] every tag it went through is
    resolved. *)
Lemma load_tags_resolves fuel tags : forall s s',
  memo_valid s ->
  load_tags bp app_id server fuel tags s = (Returned tt, s') ->
  forall t, t ∈ tags -> is_Some (_tag_to_object s' !! t).
Proof.
  induction tags as [|tag tags IH]; intros s s' Hv E t Ht.
  { by apply elem_of_nil in Ht. }
  simpl in E. unfold bind at 1, ref, new_object in E.
  unfold bind at 1 in E.
  destruct (load _ _ _ fuel _ None _) as [[w|e| |] s1] eqn:El; try discriminate.
  pose proof (load_later _ _ _ _ _ _ El) as L1.
  pose proof (load_tags_later _ _ _ _ _ E) as L2.
  apply elem_of_cons in Ht as [->|Ht].
  - assert (exists h, _tag_to_object s1 !! tag = Some h /\ object_id h = w)
      as (h & Hh & _).
    { eapply load_same_app_resolves; [| |exact El].
      - simpl.
        destruct (_local_uuid_to_object_id s !! length (objects s)) eqn:Hc;
          [|done].
        assert (length (objects s) < length (objects s)) by (apply Hv; eauto). lia.
      - simpl. by rewrite list_lookup_middle. }
    exists h. eapply lookup_weaken; [exact Hh|]. apply L2.
  - eapply IH; [|exact E|exact Ht].
    apply L1. by apply (later_valid _ _ _ (later_alloc bp s _)).
Qed.


(** The loop at one tag: the tags before it are loaded, then a new
    reference to the tag, then the tags after it. *)
Lemma load_tags_middle fuel pre tag post s r s' :
  load_tags bp app_id server fuel (pre ++ tag :: post) s = (r, s') ->
  exists r_a s_a,
    load_tags bp app_id server fuel pre s = (r_a, s_a) /\
    match r_a with
    | Returned _ =>
        exists r_b s_b,
          bind (ref None tag) (fun obj => load_ fuel obj None) s_a = (r_b, s_b) /\
          match r_b with
          | Returned _ => load_tags bp app_id server fuel post s_b = (r, s')
          | Raised e => r = Raised e /\ s' = s_b
          | Dangling => r = Dangling /\ s' = s_b
          | OutOfFuel => r = OutOfFuel /\ s' = s_b
          end
    | _ => s' = s_a /\ r = r_a
    end.
Proof.
  intros E. rewrite load_tags_app in E. unfold bind at 1 in E.
  destruct (load_tags bp app_id server fuel pre s) as [r_a s_a] eqn:Ea.
  exists r_a, s_a. split; [done|].
  destruct r_a as [[]|e| |]; try (by inversion E).
  simpl in E. unfold bind at 1, ref, new_object in E. unfold bind at 1 in E.
  destruct (load _ _ _ fuel _ None _) as [r_b s_b] eqn:El.
  exists r_b, s_b. split.
  { unfold bind, ref, new_object. by rewrite El. }
  destruct r_b; by inversion E.
Qed.

Lemma load_new_ref_later fuel tag s r s' :
  bind (ref None tag) (fun obj => load_ fuel obj None) s = (r, s') -> later bp s s'.
Proof.
  intros E. unfold bind, ref, new_object in E.
  destruct (load _ _ _ fuel _ None _) as [r1 s1] eqn:El.
  assert (s' = s1) as -> by (destruct r1; by inversion E).
  eapply later_trans; [apply later_alloc|]. eapply load_later. exact El.
Qed.

(** A new reference to a tag, once loaded, has an id, and the tag is
    resolved to it. *)
Lemma load_new_ref fuel tag s v s' :
  memo_valid s ->
  bind (ref None tag) (fun obj => load_ fuel obj None) s = (Returned v, s') ->
  later bp s s' /\ is_Some v /\
  exists h, _tag_to_object s' !! tag = Some h /\ object_id h = v.
Proof.
  intros Hv E. unfold bind, ref, new_object in E.
  destruct (load _ _ _ fuel _ None _) as [[w|e| |] s1] eqn:El; inversion E; subst.
  assert (Hm : _local_uuid_to_object_id
                 (alloc (Ref None tag DEPLOYMENT_NAMESPACE_ACCOUNT None) s)
               !! length (objects s) = None).
  { simpl. destruct (_local_uuid_to_object_id s !! length (objects s)) eqn:Hc; [|done].
    assert (length (objects s) < length (objects s)) by (apply Hv; eauto). lia. }
  split; [|split].
  - eapply later_trans; [apply later_alloc|]. eapply load_later. exact El.
  - by apply (load_returned _ _ _ _ _ _ El).
  - eapply load_same_app_resolves; [exact Hm| |exact El].
    simpl. by rewrite list_lookup_middle.
Qed.

(** [create_all_objects] is its loop and then, if the loop returned, one
    [AppSetObjects]. *)
Lemma create_all_objects_run fuel s r s' :
  create_all_objects bp app_id client_id server fuel s = (r, s') ->
  exists r1 s1,
    load_tags bp app_id server fuel (map fst bp) s = (r1, s1) /\
    match r1 with
    | Returned _ =>
        let object_ids := object_id <$> _tag_to_object s1 in
        s' = log_event (EvAppSetObjects app_id object_ids client_id) s1 /\
        r = match srv_set_objects server (events s1) app_id object_ids client_id with
            | Some e => Raised e
            | None => Returned tt
            end
    | _ => s' = s1 /\ r = r1
    end.
Proof.
  unfold create_all_objects. unfold bind at 1.
  destruct (load_tags _ _ _ _ _ s) as [[[]|e| |] s1]; intros E;
    eexists _, s1; (split; [reflexivity|]); try (by inversion E).
  unfold AppSetObjects in E. unfold bind, get, emit in E. simpl in E.
  destruct (srv_set_objects _ _ _ _ _); by inversion E.
Qed.

(** *** Ranks bound what a run can start *)

Lemma ranked_refl rank n s : ranked rank n s s.
Proof. split; [done|]. exists []. by rewrite app_nil_r. Qed.

Lemma ranked_trans rank n s1 s2 s3 :
  ranked rank n s1 s2 -> ranked rank n s2 s3 -> ranked rank n s1 s3.
Proof.
  intros [O1 (e1 & E1 & F1)] [O2 (e2 & E2 & F2)]. split; [congruence|].
  exists (e1 ++ e2). rewrite E2, E1, <- app_assoc. split; [done|].
  by apply Forall_app.
Qed.

Lemma ranked_mono rank n m s s' : n <= m -> ranked rank n s s' -> ranked rank m s s'.
Proof.
  intros Hle [O1 (e1 & E1 & F1)]. split; [done|]. exists e1. split; [done|].
  eapply Forall_impl; [exact F1|]. intros [] ?; simpl in *; auto; lia.
Qed.

Lemma ranked_log_event rank n s e :
  rank_below rank n e -> ranked rank n s (log_event e s).
Proof. intros He. split; [done|]. exists [e]. split; [done|]. by constructor. Qed.

Lemma ranked_same rank n s s1 s' :
  ranked rank n s s1 -> objects s' = objects s1 -> events s' = events s1 ->
  ranked rank n s s'.
Proof.
  intros [O1 (e1 & E1 & F1)] Ho He. split; [congruence|].
  exists e1. by rewrite He.
Qed.

Lemma wp_ranked_bind {A B} rank n (m : M A) (f : A -> M B) s0 s :
  ranked rank n s0 s ->
  wp m s (fun _ s1 => ranked rank n s s1) ->
  (forall a s1, ranked rank n s0 s1 -> wp (f a) s1 (fun _ s2 => ranked rank n s0 s2)) ->
  wp (bind m f) s (fun _ s2 => ranked rank n s0 s2).
Proof.
  intros H0 Hm Hf. unfold wp, bind in *.
  destruct (m s) as [[a|e| |] s1]; simpl in *;
    try (eapply ranked_trans; eassumption).
  apply Hf. eapply ranked_trans; eassumption.
Qed.

Lemma intercept_coro_ranked rank n (interceptor : LocalUUID -> M (option ObjectID)) :
  (forall a s, rank a < n -> acyclic bp (objects s) rank ->
               wp (interceptor a) s (fun _ s' => ranked rank n s s')) ->
  forall coro, awaits_below rank n coro ->
  forall s, acyclic bp (objects s) rank ->
    wp (intercept_coro server interceptor coro) s (fun _ s' => ranked rank n s s').
Proof.
  intros Hi coro Hc.
  induction Hc as [v|a k Ha Hk IH|request k Hk IH|e]; intros s Hs; simpl.
  - apply ranked_refl.
  - apply wp_ranked_bind; [apply ranked_refl|by apply Hi|].
    intros v s1 H1. unfold wp.
    eapply ranked_trans; [exact H1|]. apply IH. destruct H1 as [-> _]. exact Hs.
  - apply wp_ranked_bind; [apply ranked_refl| |].
    + unfold wp, rpc, bind, get, emit; simpl. by apply ranked_log_event.
    + intros v s1 H1. unfold wp.
      eapply ranked_trans; [exact H1|]. apply IH. destruct H1 as [-> _]. exact Hs.
  - apply ranked_refl.
Qed.

(** In an acyclic store [load] of [obj] starts creation logic only at ranks
    up to that of [obj], and the coroutine of [obj] only below it. *)
Lemma load_ranked rank fuel : forall obj existing s,
  acyclic bp (objects s) rank ->
  wp (load_ fuel obj existing) s (fun _ s' => ranked rank (S (rank obj)) s s').
Proof.
  induction fuel as [|fuel IH]; intros obj existing s Hs.
  { apply ranked_refl. }
  unfold wp. destruct (load_ (S fuel) obj existing s) as [r s'] eqn:E. simpl.
  destruct (_local_uuid_to_object_id s !! obj) as [cached|] eqn:Hm.
  { rewrite (load_hit _ _ _ _ _ Hm) in E. inversion E; subst. apply ranked_refl. }
  destruct (objects s !! obj) as [o|] eqn:Ho;
    [|rewrite load_dangling in E by done; inversion E; subst; apply ranked_refl].
  pose proof (Hs obj o Ho) as Hacyc.
  destruct o as [_load|[app_name|] tag namespace [d|]].
  - rewrite (load_definition _ _ _ _ _ Hm Ho) in E.
    assert (Hrun : wp (intercept_coro server (fun a => load_ fuel a None)
                                      (_load app_id existing))
                      (log_event (EvLoad obj existing) s)
                      (fun _ s1 => ranked rank (S (rank obj)) s s1)).
    { unfold wp. apply ranked_trans with (s2 := log_event (EvLoad obj existing) s).
      - apply ranked_log_event. simpl. lia.
      - eapply ranked_mono; [|apply (intercept_coro_ranked rank (rank obj))].
        + lia.
        + intros a s0 Ha Hs0. eapply ranked_mono; [|by apply IH]. lia.
        + apply Hacyc.
        + exact Hs. }
    unfold wp in Hrun.
    destruct (intercept_coro _ _ _ _) as [[w|e| |] s1]; simpl in Hrun;
      try (inversion E; subst; exact Hrun).
    destruct (reconcile existing w); inversion E; subst; [exact Hrun|].
    eapply ranked_same; [exact Hrun|done|done].
  - rewrite (load_cross_app_deploy _ _ _ _ _ _ _ _ Hm Ho) in E.
    unfold deploy, _lookup_to_id, bind, get, emit, raise, ret in E. simpl in E.
    assert (R1 : ranked rank (S (rank obj)) s
                        (log_event (EvDeploy app_name [("_object", d)]) s))
      by (by apply ranked_log_event).
    destruct (srv_deploy _ _ _ _); [inversion E; subst; exact R1|].
    assert (R2 : ranked rank (S (rank obj)) s
                   (log_event (EvAppLookupObject app_name tag namespace)
                              (log_event (EvDeploy app_name [("_object", d)]) s))).
    { eapply ranked_trans; [exact R1|]. by apply ranked_log_event. }
    simpl in E. destruct (srv_lookup _ _ _ _ _) as [e|response];
      [inversion E; subst; exact R2|].
    destruct (String.eqb _ _); inversion E; subst; [exact R2|].
    eapply ranked_same; [exact R2|done|done].
  - rewrite (load_cross_app _ _ _ _ _ _ _ Hm Ho) in E.
    unfold _lookup_to_id, bind, get, emit, raise, ret in E. simpl in E.
    assert (R2 : ranked rank (S (rank obj)) s
                   (log_event (EvAppLookupObject app_name tag namespace) s))
      by (by apply ranked_log_event).
    destruct (srv_lookup _ _ _ _ _) as [e|response];
      [inversion E; subst; exact R2|].
    destruct (String.eqb _ _); inversion E; subst; [exact R2|].
    eapply ranked_same; [exact R2|done|done].
  - rewrite (load_same_app_definition _ _ _ _ _ _ _ Hm Ho) in E.
    inversion E; subst. apply ranked_refl.
  - destruct (_tag_to_object s !! tag) as [h|] eqn:Ht.
    + rewrite (load_same_app_resolved _ _ _ _ _ _ _ Hm Ho Ht) in E.
      inversion E; subst. eapply ranked_same; [apply ranked_refl|done|done].
    + destruct (blueprint_get bp tag) as [real_obj|] eqn:Hb.
      * rewrite (load_same_app_fetch _ _ _ _ _ _ _ Hm Ho Ht Hb) in E.
        specialize (Hacyc real_obj eq_refl).
        pose proof (IH real_obj (_tag_to_existing_id s !! tag) s Hs) as Hrun.
        unfold wp in Hrun.
        destruct (load _ _ _ fuel real_obj _ s) as [[w|e| |] s1]; simpl in Hrun;
          inversion E; subst; (eapply ranked_mono; [|exact Hrun]); lia.
      * rewrite (load_same_app_unknown _ _ _ _ _ _ Hm Ho Ht Hb) in E.
        inversion E; subst. apply ranked_refl.
Qed.

Lemma ranked_count_loads rank s s' u :
  ranked rank (rank u) s s' -> count_loads u (events s') = count_loads u (events s).
Proof.
  intros [_ (evs & -> & F)]. rewrite count_loads_app.
  assert (count_loads u evs = 0) as ->; [|lia].
  induction F as [|e evs He _ IH]; [done|].
  unfold count_loads in *. simpl. destruct (is_load_of u e) eqn:E; [|done].
  destruct e; simpl in *; try discriminate.
  apply Nat.eqb_eq in E. subst. lia.
Qed.

(** In an acyclic store a [load] that gets past the cache starts the
    creation logic of a definition once. *)
Lemma load_definition_once rank fuel obj existing s _load r s' :
  acyclic bp (objects s) rank ->
  _local_uuid_to_object_id s !! obj = None ->
  objects s !! obj = Some (Definition_ _load) ->
  load_ (S fuel) obj existing s = (r, s') ->
  count_loads obj (events s') = S (count_loads obj (events s)).
Proof.
  intros Hs Hm Ho E. rewrite (load_definition _ _ _ _ _ Hm Ho) in E.
  assert (Hrun : wp (intercept_coro server (fun a => load_ fuel a None)
                                    (_load app_id existing))
                    (log_event (EvLoad obj existing) s)
                    (fun _ s1 => count_loads obj (events s1)
                                 = S (count_loads obj (events s)))).
  { unfold wp.
    erewrite (ranked_count_loads rank); cycle 1.
    - apply (intercept_coro_ranked rank (rank obj)).
      + intros a s0 Ha Hs0. eapply ranked_mono; [|by apply load_ranked]. lia.
      + apply (Hs obj _ Ho).
      + exact Hs.
    - simpl. rewrite count_loads_app. unfold count_loads at 2. simpl.
      rewrite Nat.eqb_refl. simpl. lia. }
  unfold wp in Hrun.
  destruct (intercept_coro _ _ _ _) as [[w|e| |] s1]; simpl in Hrun;
    try (inversion E; subst; exact Hrun).
  destruct (reconcile existing w); inversion E; subst; exact Hrun.
Qed.

(** *** No [None] in place of an id *)

Lemma no_none_memoize s u object_id' :
  no_none s -> no_none (memoize u (Some object_id') s).
Proof.
  intros [Hm Ht]. split; [|exact Ht]. intros w. simpl.
  destruct (decide (w = u)) as [->|Hne].
  - rewrite lookup_insert_eq. discriminate.
  - rewrite lookup_insert_ne by done. apply Hm.
Qed.

Lemma no_none_with_tag_to_object s tag object_id' :
  no_none s -> no_none (with_tag_to_object tag (from_id (Some object_id')) s).
Proof.
  intros [Hm Ht]. split; [exact Hm|]. intros t h. simpl.
  destruct (decide (t = tag)) as [->|Hne].
  - rewrite lookup_insert_eq. intros [= <-]. discriminate.
  - rewrite lookup_insert_ne by done. apply Ht.
Qed.

Lemma intercept_coro_no_none (interceptor : LocalUUID -> M (option ObjectID)) :
  (forall a s v s', no_none s -> interceptor a s = (Returned v, s') -> no_none s') ->
  forall coro s v s',
    no_none s -> intercept_coro server interceptor coro s = (Returned v, s') ->
    no_none s'.
Proof.
  intros Hi. induction coro as [w|a k IH|request k IH|e]; intros s v s' Hs E;
    simpl in E.
  - by inversion E; subst.
  - unfold bind in E.
    destruct (interceptor a s) as [[w|e| |] s1] eqn:Ea; try discriminate.
    eapply IH; [|exact E]. eapply Hi; eauto.
  - unfold bind at 1, rpc, bind, get, emit, ret in E. simpl in E.
    eapply IH; [|exact E]. exact Hs.
  - discriminate.
Qed.

Ltac stored_id E :=
  unfold store_and_return in E;
  try match type of E with
      | (match ?w with _ => _ end, _) = _ => destruct w
      end;
  inversion E; subst;
  split; [repeat first [apply no_none_memoize|apply no_none_with_tag_to_object];
          assumption
         |eauto].

(** A [load] that returns, in a session without [None] ids, returns an id
    and leaves no [None] id behind. *)
Lemma load_no_none fuel : forall obj existing s v s',
  no_none s -> load_ fuel obj existing s = (Returned v, s') ->
  no_none s' /\ is_Some v.
Proof.
  induction fuel as [|fuel IH]; intros obj existing s v s' Hs; [discriminate|].
  destruct (_local_uuid_to_object_id s !! obj) as [cached|] eqn:Hm.
  { rewrite (load_hit _ _ _ _ _ Hm). intros [= <- <-]. split; [done|].
    destruct cached; [eauto|]. by destruct (proj1 Hs obj). }
  destruct (objects s !! obj) as [o|] eqn:Ho;
    [|rewrite load_dangling by done; discriminate].
  destruct o as [_load|[app_name|] tag namespace [d|]].
  - rewrite (load_definition _ _ _ _ _ Hm Ho).
    destruct (intercept_coro _ _ _ _) as [[w|e| |] s1] eqn:Er; try discriminate.
    assert (no_none s1).
    { eapply intercept_coro_no_none in Er; [exact Er| |exact Hs].
      intros a s0 v0 s0' H0 E0. by destruct (IH _ _ _ _ _ H0 E0). }
    destruct (reconcile existing w); [discriminate|]. intros E. stored_id E.
  - rewrite (load_cross_app_deploy _ _ _ _ _ _ _ _ Hm Ho).
    unfold deploy, _lookup_to_id, bind, get, emit, raise, ret. simpl.
    destruct (srv_deploy _ _ _ _); [discriminate|]. simpl.
    destruct (srv_lookup _ _ _ _ _) as [e|response]; [discriminate|].
    destruct (String.eqb _ _); [discriminate|]. intros E. stored_id E.
  - rewrite (load_cross_app _ _ _ _ _ _ _ Hm Ho).
    unfold _lookup_to_id, bind, get, emit, raise, ret. simpl.
    destruct (srv_lookup _ _ _ _ _) as [e|response]; [discriminate|].
    destruct (String.eqb _ _); [discriminate|]. intros E. stored_id E.
  - rewrite (load_same_app_definition _ _ _ _ _ _ _ Hm Ho). discriminate.
  - destruct (_tag_to_object s !! tag) as [h|] eqn:Ht.
    + rewrite (load_same_app_resolved _ _ _ _ _ _ _ Hm Ho Ht).
      intros E. stored_id E.
    + destruct (blueprint_get bp tag) as [real_obj|] eqn:Hb.
      * rewrite (load_same_app_fetch _ _ _ _ _ _ _ Hm Ho Ht Hb).
        destruct (load _ _ _ fuel real_obj _ s) as [[w|e| |] s1] eqn:En;
          try discriminate.
        destruct (IH _ _ _ _ _ Hs En) as [H1 _].
        intros E. stored_id E.
      * rewrite (load_same_app_unknown _ _ _ _ _ _ Hm Ho Ht Hb). discriminate.
Qed.

(** The existing id matters to a definition that is not memoized, and to
    nothing else. *)
Lemma load_ignores_existing fuel obj existing existing' s :
  (forall _load, objects s !! obj = Some (Definition_ _load) ->
                 is_Some (_local_uuid_to_object_id s !! obj)) ->
  load_ fuel obj existing s = load_ fuel obj existing' s.
Proof.
  intros Hd. destruct fuel as [|fuel]; [reflexivity|].
  destruct (_local_uuid_to_object_id s !! obj) as [cached|] eqn:Hm.
  { by rewrite !(load_hit _ _ _ _ _ Hm). }
  destruct (objects s !! obj) as [o|] eqn:Ho;
    [|by rewrite !load_dangling by done].
  destruct o as [_load|[app_name|] tag namespace [d|]].
  - destruct (Hd _load eq_refl) as [v Hv]. congruence.
  - by rewrite (load_cross_app_deploy _ _ existing _ _ _ _ _ Hm Ho),
               (load_cross_app_deploy _ _ existing' _ _ _ _ _ Hm Ho).
  - by rewrite (load_cross_app _ _ existing _ _ _ _ Hm Ho),
               (load_cross_app _ _ existing' _ _ _ _ Hm Ho).
  - by rewrite (load_same_app_definition _ _ existing _ _ _ _ Hm Ho),
               (load_same_app_definition _ _ existing' _ _ _ _ Hm Ho).
  - destruct (_tag_to_object s !! tag) as [h|] eqn:Ht.
    + by rewrite (load_same_app_resolved _ _ existing _ _ _ _ Hm Ho Ht),
                 (load_same_app_resolved _ _ existing' _ _ _ _ Hm Ho Ht).
    + destruct (blueprint_get bp tag) as [real_obj|] eqn:Hb.
      * by rewrite (load_same_app_fetch _ _ existing _ _ _ _ Hm Ho Ht Hb),
                   (load_same_app_fetch _ _ existing' _ _ _ _ Hm Ho Ht Hb).
      * by rewrite (load_same_app_unknown _ _ existing _ _ _ Hm Ho Ht Hb),
                   (load_same_app_unknown _ _ existing' _ _ _ Hm Ho Ht Hb).
Qed.

Lemma object_id_eqb_eq a b : object_id_eqb a b = true <-> a = b.
Proof.
  destruct a as [x|], b as [y|]; simpl; split; try done.
  - intros H. apply String.eqb_eq in H. by subst.
  - intros [= ->]. apply String.eqb_refl.
Qed.

(** ** The properties of the load algorithm *)

(** C1 (memoization, append-only cache).  Once [_local_uuid_to_object_id]
    maps a [local_uuid] to a value, [load] of that object returns this
    value at once and leaves the state as it is: no event, so no remote
    call and no run of the creation logic.  Every later [load] of any
    object and every [create_all_objects], whatever their outcome, keep
    the entry as it is and do not start the creation logic of that object
    again. *)
Theorem load_memoized s u v :
  _local_uuid_to_object_id s !! u = Some v ->
  (forall fuel existing, load bp app_id server (S fuel) u existing s = (Returned v, s)) /\
  (forall fuel obj existing r s',
      load bp app_id server fuel obj existing s = (r, s') ->
      _local_uuid_to_object_id s' !! u = Some v /\
      count_loads u (events s') = count_loads u (events s)) /\
  (forall fuel r s',
      create_all_objects bp app_id client_id server fuel s = (r, s') ->
      _local_uuid_to_object_id s' !! u = Some v /\
      count_loads u (events s') = count_loads u (events s)).
Proof.
  intros Hu. split; [|split].
  - intros fuel existing. by apply load_hit.
  - intros fuel obj existing r s' E. apply load_later in E. split.
    + eapply lookup_weaken; [exact Hu|apply E].
    + eapply later_count_loads; eauto.
  - intros fuel r s' E.
    apply create_all_objects_run in E as (r1 & s1 & E1 & E2).
    apply load_tags_later in E1.
    assert (_local_uuid_to_object_id s1 !! u = Some v)
      by (eapply lookup_weaken; [exact Hu|apply E1]).
    assert (count_loads u (events s1) = count_loads u (events s))
      by (eapply later_count_loads; eauto).
    destruct r1 as [[]|e| |]; destruct E2 as [-> _]; try done.
    split; [done|]. simpl. rewrite count_loads_app. unfold count_loads at 2.
    simpl. lia.
Qed.

(** C2, as the code has it (reconciliation is part of the branch of
    definitions, and the test for [im-] is on the existing id).  For a
    definition loaded with an existing id, once its creation logic has
    produced [produced]: if [produced] differs from the existing id and
    the existing id does not start with [im-], [load] raises the mismatch
    and does not memoize the object; if an id was produced, and it equals
    the existing id or the existing id starts with [im-], [load] returns
    the produced id and memoizes it; if nothing was produced and the
    existing id starts with [im-], [load] memoizes [None] and raises the
    missing id.  The existing id supplied with a [Ref] is not used: [load]
    of a [Ref] gives the same result and the same state whatever existing
    id it is called with. *)
Theorem load_reconciles fuel obj s :
  (forall existing _load produced s1,
      _local_uuid_to_object_id s !! obj = None ->
      objects s !! obj = Some (Definition_ _load) ->
      intercept_coro server (fun awaitable => load bp app_id server fuel awaitable None)
                     (_load app_id (Some existing))
                     (log_event (EvLoad obj (Some existing)) s)
      = (Returned produced, s1) ->
      (produced <> Some existing -> String.prefix "im-" existing = false ->
       load bp app_id server (S fuel) obj (Some existing) s
       = (Raised (ExistingIdMismatch existing produced), s1)) /\
      (forall object_id,
          produced = Some object_id ->
          object_id = existing \/ String.prefix "im-" existing = true ->
          load bp app_id server (S fuel) obj (Some existing) s
          = (Returned (Some object_id), memoize obj (Some object_id) s1)) /\
      (produced = None -> String.prefix "im-" existing = true ->
       load bp app_id server (S fuel) obj (Some existing) s
       = (Raised ObjectIdIsNone, memoize obj None s1))) /\
  (forall app_name tag namespace definition existing existing',
      objects s !! obj = Some (Ref app_name tag namespace definition) ->
      load bp app_id server fuel obj existing s
      = load bp app_id server fuel obj existing' s).
Proof.
  split.
  - intros existing _load produced s1 Hm Ho Hrun.
    rewrite (load_definition _ _ _ _ _ Hm Ho), Hrun. split; [|split].
    + intros Hne Hp. unfold reconcile. rewrite Hp.
      destruct (object_id_eqb produced (Some existing)) eqn:E; [|done].
      apply object_id_eqb_eq in E. done.
    + intros id -> Hok. unfold reconcile.
      assert (negb (object_id_eqb (Some id) (Some existing))
              && negb (String.prefix "im-" existing) = false) as ->; [|done].
      destruct Hok as [-> | ->].
      * simpl. by rewrite String.eqb_refl.
      * apply andb_false_r.
    + intros -> Hp. unfold reconcile. by rewrite Hp.
  - intros app_name tag namespace definition existing existing' Ho.
    apply load_ignores_existing. intros _load Hd. congruence.
Qed.

(** C3 (references of the same application, diamond sharing).  For a
    reference of the same application, without an embedded definition and
    not memoized: if its tag is resolved in [_tag_to_object], [load]
    returns the id kept there without any event; otherwise [load] takes
    the definition of the tag from the blueprint, loads it with
    [_tag_to_existing_id[tag]] as existing id and keeps the result under
    [_tag_to_object[tag]].  So once one reference to a tag was loaded,
    every other reference to that tag resolves, at any later state, to the
    same id without any event; and when the blueprint is acyclic the
    creation logic of the definition under the tag ran once in the first
    load and never runs afterwards. *)
Theorem same_app_reference_resolution rank s obj tag namespace :
  _local_uuid_to_object_id s !! obj = None ->
  objects s !! obj = Some (Ref None tag namespace None) ->
  (forall h object_id',
     _tag_to_object s !! tag = Some h -> object_id h = Some object_id' ->
     forall fuel existing,
       load bp app_id server (S fuel) obj existing s
       = (Returned (Some object_id'), memoize obj (Some object_id') s)) /\
  (forall real_obj, _tag_to_object s !! tag = None ->
     blueprint_get bp tag = Some real_obj ->
     forall fuel existing object_id' s1,
       load bp app_id server fuel real_obj (_tag_to_existing_id s !! tag) s
       = (Returned (Some object_id'), s1) ->
       load bp app_id server (S fuel) obj existing s
       = (Returned (Some object_id'),
          memoize obj (Some object_id')
                  (with_tag_to_object tag (from_id (Some object_id')) s1))) /\
  (forall fuel existing object_id' s1,
     load bp app_id server fuel obj existing s = (Returned (Some object_id'), s1) ->
     (forall s2 obj2 namespace2,
        later bp s1 s2 ->
        _local_uuid_to_object_id s2 !! obj2 = None ->
        objects s2 !! obj2 = Some (Ref None tag namespace2 None) ->
        forall fuel2 existing2,
          load bp app_id server (S fuel2) obj2 existing2 s2
          = (Returned (Some object_id'), memoize obj2 (Some object_id') s2)) /\
     (forall real_obj _load,
        _tag_to_object s !! tag = None ->
        blueprint_get bp tag = Some real_obj ->
        objects s !! real_obj = Some (Definition_ _load) ->
        _local_uuid_to_object_id s !! real_obj = None ->
        acyclic bp (objects s) rank ->
        count_loads real_obj (events s1) = S (count_loads real_obj (events s)) /\
        forall s2, later bp s1 s2 ->
                   count_loads real_obj (events s2) = count_loads real_obj (events s1))).
Proof.
  intros Hm Ho. split; [|split].
  - intros h id Ht Hid fuel existing.
    rewrite (load_same_app_resolved _ _ _ _ _ _ _ Hm Ho Ht).
    unfold store_and_return. by rewrite Hid.
  - intros real_obj Ht Hb fuel existing id s1 E.
    by rewrite (load_same_app_fetch _ _ _ _ _ _ _ Hm Ho Ht Hb), E.
  - intros fuel existing id s1 E. split.
    + intros s2 obj2 namespace2 L Hm2 Ho2 fuel2 existing2.
      destruct (load_same_app_resolves _ _ _ _ _ _ _ _ Hm Ho E) as (h & Hh & Hid).
      assert (Hh2 : _tag_to_object s2 !! tag = Some h)
        by (eapply lookup_weaken; [exact Hh|apply L]).
      rewrite (load_same_app_resolved _ _ _ _ _ _ _ Hm2 Ho2 Hh2).
      unfold store_and_return. by rewrite Hid.
    + intros real_obj _load Ht Hb Hor Hmr Hacyc.
      destruct fuel as [|fuel]; [discriminate|].
      rewrite (load_same_app_fetch _ _ _ _ _ _ _ Hm Ho Ht Hb) in E.
      destruct (load _ _ _ fuel real_obj _ s) as [[w|e| |] s0] eqn:E0;
        try discriminate.
      assert (Hne : obj <> real_obj) by congruence.
      destruct (load_returned _ _ _ _ _ _ E0) as [Hmemo0 _].
      assert (Hev : events s1 = events s0)
        by (unfold store_and_return in E; destruct w; by inversion E).
      assert (Hmemo1 : is_Some (_local_uuid_to_object_id s1 !! real_obj)).
      { unfold store_and_return in E. destruct w; inversion E; subst; simpl.
        rewrite lookup_insert_ne by done. eauto. }
      destruct fuel as [|fuel]; [discriminate|].
      rewrite Hev. split.
      * eapply load_definition_once; eauto.
      * intros s2 L. rewrite <- Hev. eapply later_count_loads; eauto.
Qed.

(** C4, as the code has it (the map that is sent is the whole of
    [_tag_to_object], and nothing rejects a registration).  In a session
    whose memoized objects exist and whose [_tag_to_object] holds only
    tags of the blueprint (an empty one, as [init_new] and [init_existing]
    make it, is one), a run of [create_all_objects] either sends no
    [AppSetObjects] and does not succeed, or it first loads every tag of
    the blueprint and then sends [AppSetObjects] once, with the ids of
    [_tag_to_object] as they are after the loads; the keys of that map are
    the tags of the blueprint; and every tag of the blueprint, at its
    place, was loaded through a new reference from the state the tags
    before it left, that load returned an id, and this id is the one sent
    for the tag. *)
Theorem create_all_objects_registers fuel s r s' :
  memo_valid s ->
  (forall t, is_Some (_tag_to_object s !! t) -> t ∈ map fst bp) ->
  create_all_objects bp app_id client_id server fuel s = (r, s') ->
  (r <> Returned tt /\
   count_set_objects (events s') = count_set_objects (events s)) \/
  (exists s1,
      load_tags bp app_id server fuel (map fst bp) s = (Returned tt, s1) /\
      count_set_objects (events s1) = count_set_objects (events s) /\
      let object_ids := object_id <$> _tag_to_object s1 in
      events s' = events s1 ++ [EvAppSetObjects app_id object_ids client_id] /\
      count_set_objects (events s') = S (count_set_objects (events s)) /\
      (forall t, is_Some (object_ids !! t) <-> t ∈ map fst bp) /\
      forall pre tag post,
        map fst bp = pre ++ tag :: post ->
        exists s_a object_id' s_b,
          load_tags bp app_id server fuel pre s = (Returned tt, s_a) /\
          bind (ref None tag) (fun obj => load bp app_id server fuel obj None) s_a
          = (Returned (Some object_id'), s_b) /\
          load_tags bp app_id server fuel post s_b = (Returned tt, s1) /\
          events s `prefix_of` events s_a /\
          events s_a `prefix_of` events s_b /\
          events s_b `prefix_of` events s1 /\
          object_ids !! tag = Some (Some object_id')).
Proof.
  intros Hv Htags E.
  apply create_all_objects_run in E as (r1 & s1 & E1 & E2).
  pose proof (load_tags_later _ _ _ _ _ E1) as L.
  pose proof (later_count_set_objects _ _ _ L) as Hc.
  destruct r1 as [[]|e| |]; destruct E2 as [-> ->];
    try (left; split; [discriminate|exact Hc]).
  right. exists s1. split; [exact E1|]. split; [exact Hc|]. simpl.
  split; [done|]. split.
  { rewrite count_set_objects_app. unfold count_set_objects at 2. simpl. lia. }
  split.
  { intros t. rewrite lookup_fmap, fmap_is_Some. split.
    - intros Hs. destruct (_tag_to_object s !! t) eqn:Ht.
      + apply Htags. eauto.
      + apply blueprint_get_is_Some. eapply later_new_tags; eauto.
    - intros Ht. eapply load_tags_resolves; eauto. }
  assert (Hpre : forall s s', later bp s s' -> events s `prefix_of` events s').
  { intros s0 s0' [_ (evs & -> & _) _ _ _ _ _]. by apply prefix_app_r. }
  intros pre tag post Hsplit. rewrite Hsplit in E1.
  apply load_tags_middle in E1 as (r_a & s_a & Ea & E1).
  destruct r_a as [[]|e| |]; try (by destruct E1).
  destruct E1 as (r_b & s_b & Eb & E1).
  destruct r_b as [v|e| |]; try (by destruct E1).
  pose proof (load_tags_later _ _ _ _ _ Ea) as La.
  assert (Hva : memo_valid s_a) by (by apply (later_valid _ _ _ La)).
  destruct (load_new_ref _ _ _ _ _ Hva Eb) as (Lb & [id ->] & h & Hh & Hid).
  pose proof (load_tags_later _ _ _ _ _ E1) as L1.
  exists s_a, id, s_b. repeat (split; [by auto|]).
  rewrite lookup_fmap. erewrite lookup_weaken; [|exact Hh|apply L1].
  simpl. by rewrite Hid.
Qed.


(** C6, as the code has it (the throwaway application holds the
    definition under the fixed tag [_object], whatever the tag of the
    reference).  For a reference with an [app_name] and an embedded
    definition that is not memoized, when the deployment succeeds and the
    lookup answers with an id: [load] issues one deployment of [app_name]
    whose blueprint is the definition alone under [_object], then one
    lookup of [(app_name, tag, namespace)], and returns the id of the
    lookup. *)
Theorem load_cross_app_embedded fuel obj existing s app_name tag namespace d response :
  _local_uuid_to_object_id s !! obj = None ->
  objects s !! obj = Some (Ref (Some app_name) tag namespace (Some d)) ->
  srv_deploy server (events s) app_name [("_object", d)] = None ->
  srv_lookup server (events s ++ [EvDeploy app_name [("_object", d)]])
             app_name tag namespace = inr response ->
  resp_object_id response <> "" ->
  exists s',
    load bp app_id server (S fuel) obj existing s
    = (Returned (Some (resp_object_id response)), s') /\
    events s' = events s ++ [EvDeploy app_name [("_object", d)];
                             EvAppLookupObject app_name tag namespace] /\
    _local_uuid_to_object_id s'
    = <[obj := Some (resp_object_id response)]> (_local_uuid_to_object_id s).
Proof.
  intros Hm Ho Hd Hl Hid. rewrite (load_cross_app_deploy _ _ _ _ _ _ _ _ Hm Ho).
  unfold deploy, _lookup_to_id, bind, get, emit, raise, ret. simpl.
  rewrite Hd. simpl. rewrite Hl.
  apply String.eqb_neq in Hid. rewrite Hid.
  eexists. split; [reflexivity|]. simpl. split; [|done].
  by rewrite <- app_assoc.
Qed.

(** Creation logic that awaits its dependencies first goes on only when
    each of them is memoized; otherwise it stops where one of them failed
    to load. *)
Lemma await_all_run fuel dependencies k : forall s r s',
  intercept_coro server (fun a => load_ fuel a None) (await_all dependencies k) s
  = (r, s') ->
  (exists s1,
      later bp s s1 /\
      (forall d, d ∈ dependencies -> is_Some (_local_uuid_to_object_id s1 !! d)) /\
      (no_none s ->
       no_none s1 /\
       forall d, d ∈ dependencies ->
         exists object_id', _local_uuid_to_object_id s1 !! d = Some (Some object_id')) /\
      intercept_coro server (fun a => load_ fuel a None) k s1 = (r, s')) \/
  (exists pre d post s0,
      dependencies = pre ++ d :: post /\
      later bp s s0 /\
      (forall d', d' ∈ pre -> is_Some (_local_uuid_to_object_id s0 !! d')) /\
      load_ fuel d None s0 = (r, s') /\
      forall v, r <> Returned v).
Proof.
  induction dependencies as [|d ds IH]; intros s r s' E.
  { left. exists s. split; [apply later_refl|]. split.
    - by intros d ?%elem_of_nil.
    - split; [|exact E]. intros Hs. split; [exact Hs|]. by intros d ?%elem_of_nil. }
  simpl in E. unfold bind in E.
  destruct (load_ fuel d None s) as [r1 s1] eqn:E1.
  pose proof (load_later _ _ _ _ _ _ E1) as L1.
  destruct r1 as [v|e| |]; cycle 1.
  { right. exists [], d, ds, s. inversion E; subst.
    split; [done|]. split; [apply later_refl|]. split; [by intros d' ?%elem_of_nil|].
    split; [exact E1|discriminate]. }
  { right. exists [], d, ds, s. inversion E; subst.
    split; [done|]. split; [apply later_refl|]. split; [by intros d' ?%elem_of_nil|].
    split; [exact E1|discriminate]. }
  { right. exists [], d, ds, s. inversion E; subst.
    split; [done|]. split; [apply later_refl|]. split; [by intros d' ?%elem_of_nil|].
    split; [exact E1|discriminate]. }
  destruct (load_returned _ _ _ _ _ _ E1) as [Hd _].
  destruct (IH _ _ _ E) as [(s2 & L2 & Hall & Hids & Ek)
                           |(pre & d' & post & s0 & -> & L0 & Hpre & Ef & Hr)].
  - left. exists s2. split; [eapply later_trans; eassumption|]. split; [|split].
    + intros d' [->|Hd']%elem_of_cons; [|by apply Hall].
      exists v. eapply lookup_weaken; [exact Hd|apply L2].
    + intros Hs. destruct (load_no_none _ _ _ _ _ _ Hs E1) as [Hs1 [id ->]].
      destruct (Hids Hs1) as [Hs2 Hids']. split; [exact Hs2|].
      intros d' [->|Hd']%elem_of_cons; [|by apply Hids'].
      exists id. eapply lookup_weaken; [exact Hd|apply L2].
    + exact Ek.
  - right. exists (d :: pre), d', post, s0. split; [done|].
    split; [eapply later_trans; eassumption|]. split; [|by split].
    intros d0 [->|Hd0]%elem_of_cons; [|by apply Hpre].
    exists v. eapply lookup_weaken; [exact Hd|apply L0].
Qed.

(** C7, as the code has it (what is ordered is what creation logic does
    after it awaits).  [load] of a definition that is not memoized logs
    the start of its creation logic and runs it, and nothing else adds to
    the log.  Creation logic that awaits an object goes on only after
    [load] of that object has returned, from the state that load left, in
    which the object is memoized with the id handed back; a call it issues
    next comes right after the events of that load; and if that load does
    not return, nothing more of the creation logic runs: it fails the same
    way in the state that load left, so that no call of its own follows.
    So creation logic that awaits all the objects it depends on first
    sends its creation call only when each of them is memoized (with an id,
    in a session without [None] ids), right after the events of their
    loads; and if one of them fails to load, it stops there, with the
    error of that load, and its creation call is not sent.
    [create_all_objects] runs its loop first; the loop over
    [pre ++ tag :: post] loads the tags of [pre], then, if they all
    returned, a new reference to [tag] from the state they left, then, if
    that returned, the tags of [post] from the state it left, and it stops
    at the first failure: the events of a tag come after all events of
    the tags before it. *)
Theorem load_depth_first fuel :
  (forall obj existing s _load r s',
      _local_uuid_to_object_id s !! obj = None ->
      objects s !! obj = Some (Definition_ _load) ->
      load bp app_id server (S fuel) obj existing s = (r, s') ->
      exists r0 s0,
        intercept_coro server (fun a => load bp app_id server fuel a None)
                       (_load app_id existing)
                       (log_event (EvLoad obj existing) s)
        = (r0, s0) /\
        events s' = events s0 /\
        match r0 with
        | Returned _ => True
        | Raised e => r = Raised e
        | Dangling => r = Dangling
        | OutOfFuel => r = OutOfFuel
        end) /\
  (forall awaitable k s r s',
      intercept_coro server (fun a => load bp app_id server fuel a None)
                     (CoAwaitObject awaitable k) s
      = (r, s') ->
      exists r1 s1,
        load bp app_id server fuel awaitable None s = (r1, s1) /\
        events s `prefix_of` events s1 /\ events s1 `prefix_of` events s' /\
        match r1 with
        | Returned v =>
            _local_uuid_to_object_id s1 !! awaitable = Some v /\
            (_local_uuid_to_object_id s !! awaitable = None -> is_Some v) /\
            intercept_coro server (fun a => load bp app_id server fuel a None)
                           (k v) s1
            = (r, s') /\
            (forall request k',
                k v = CoAwaitRpc request k' ->
                (events s1 ++ [EvRpc request]) `prefix_of` events s')
        | _ => s' = s1 /\ r = r1
        end) /\
  (forall dependencies k s r s',
      intercept_coro server (fun a => load bp app_id server fuel a None)
                     (await_all dependencies k) s
      = (r, s') ->
      (exists s1,
          events s `prefix_of` events s1 /\
          (forall d, d ∈ dependencies ->
             is_Some (_local_uuid_to_object_id s1 !! d)) /\
          (no_none s ->
           forall d, d ∈ dependencies ->
             exists object_id',
               _local_uuid_to_object_id s1 !! d = Some (Some object_id')) /\
          intercept_coro server (fun a => load bp app_id server fuel a None) k s1
          = (r, s') /\
          (forall request k',
              k = CoAwaitRpc request k' ->
              (events s1 ++ [EvRpc request]) `prefix_of` events s')) \/
      (exists pre d post s0,
          dependencies = pre ++ d :: post /\
          events s `prefix_of` events s0 /\
          (forall d', d' ∈ pre -> is_Some (_local_uuid_to_object_id s0 !! d')) /\
          load bp app_id server fuel d None s0 = (r, s') /\
          forall v, r <> Returned v)) /\
  (forall s r s',
      create_all_objects bp app_id client_id server fuel s = (r, s') ->
      exists r1 s1,
        load_tags bp app_id server fuel (map fst bp) s = (r1, s1) /\
        events s1 `prefix_of` events s') /\
  (forall pre tag post s r s',
      load_tags bp app_id server fuel (pre ++ tag :: post) s = (r, s') ->
      exists r_a s_a,
        load_tags bp app_id server fuel pre s = (r_a, s_a) /\
        events s `prefix_of` events s_a /\
        match r_a with
        | Returned _ =>
            exists r_b s_b,
              bind (ref None tag) (fun obj => load bp app_id server fuel obj None) s_a
              = (r_b, s_b) /\
              events s_a `prefix_of` events s_b /\
              events s_b `prefix_of` events s' /\
              match r_b with
              | Returned _ => load_tags bp app_id server fuel post s_b = (r, s')
              | Raised e => r = Raised e /\ s' = s_b
              | Dangling => r = Dangling /\ s' = s_b
              | OutOfFuel => r = OutOfFuel /\ s' = s_b
              end
        | _ => s' = s_a /\ r = r_a
        end).
Proof.
  assert (Hpre : forall s s', later bp s s' -> events s `prefix_of` events s').
  { intros s s' [_ (evs & -> & _) _ _ _ _ _]. by apply prefix_app_r. }
  assert (Hrpc : forall request k' s r s',
             intercept_coro server (fun a => load_ fuel a None)
                            (CoAwaitRpc request k') s = (r, s') ->
             (events s ++ [EvRpc request]) `prefix_of` events s').
  { intros request k' s r s' E. simpl in E.
    unfold bind at 1, rpc, bind, get, emit, ret in E. simpl in E.
    apply (Hpre (log_event (EvRpc request) s) s').
    exact (wp_run _ _ _ _ _
             (intercept_coro_forward _ (fun a s0 => load_forward fuel a None s0)
                                     _ _) E). }
  split; [|split; [|split; [|split]]].
  - intros obj existing s _load r s' Hm Ho E.
    rewrite (load_definition _ _ _ _ _ Hm Ho) in E.
    destruct (intercept_coro _ _ _ _) as [r0 s0].
    exists r0, s0. split; [done|].
    destruct r0 as [w|e| |]; try (by inversion E).
    split; [|done]. destruct (reconcile existing w); [by inversion E|].
    unfold store_and_return in E. destruct w; by inversion E.
  - intros awaitable k s r s' E. simpl in E. unfold bind in E.
    destruct (load_ fuel awaitable None s) as [r1 s1] eqn:E1.
    exists r1, s1. split; [done|]. split; [eapply Hpre, load_later, E1|].
    destruct r1 as [v|e| |]; try (inversion E; subst; by split).
    split.
    + apply Hpre.
      exact (wp_run _ _ _ _ _
               (intercept_coro_forward _ (fun a s0 => load_forward fuel a None s0)
                                       (k v) s1) E).
    + destruct (load_returned _ _ _ _ _ _ E1). repeat (split; [done|]).
      intros request k' Hk. rewrite Hk in E. by eapply Hrpc.
  - intros dependencies k s r s' E.
    destruct (await_all_run _ _ _ _ _ _ E)
      as [(s1 & L1 & Hall & Hids & Ek)|(pre & d & post & s0 & Hs & L0 & Hp & Ef & Hr)].
    + left. exists s1. split; [by apply Hpre|]. split; [exact Hall|].
      split; [intros Hn; by apply Hids|]. split; [exact Ek|].
      intros request k' ->. by eapply Hrpc.
    + right. exists pre, d, post, s0. split; [exact Hs|].
      split; [by apply Hpre|]. by split.
  - intros s r s' E.
    apply create_all_objects_run in E as (r1 & s1 & E1 & E2).
    exists r1, s1. split; [exact E1|].
    destruct r1 as [[]|e| |]; destruct E2 as [-> _]; try done.
    by apply prefix_app_r.
  - intros pre tag post s r s' E.
    pose proof (load_tags_later _ _ _ _ _ E) as L.
    apply load_tags_middle in E as (r_a & s_a & Ea & E).
    exists r_a, s_a. split; [exact Ea|].
    split; [eapply Hpre, load_tags_later, Ea|].
    destruct r_a as [[]|e| |]; try exact E.
    destruct E as (r_b & s_b & Eb & E).
    exists r_b, s_b. split; [exact Eb|].
    split; [eapply Hpre, load_new_ref_later, Eb|].
    destruct r_b as [v|e| |]; [|by destruct E; subst..].
    split; [|exact E]. eapply Hpre, load_tags_later, E.
Qed.

(** C8, as the code has it (the tag is looked up in [_tag_to_object]
    first).  For a reference of the same application, without an embedded
    definition and not memoized, whose tag is neither resolved in
    [_tag_to_object] nor a key of the blueprint: [load] raises [KeyError]
    and leaves the state as it is, so nothing is sent and nothing is
    cached. *)
Theorem load_unknown_tag_raises fuel obj existing s tag namespace :
  _local_uuid_to_object_id s !! obj = None ->
  objects s !! obj = Some (Ref None tag namespace None) ->
  _tag_to_object s !! tag = None ->
  tag ∉ map fst bp ->
  load bp app_id server (S fuel) obj existing s = (Raised (KeyError tag), s).
Proof.
  intros Hm Ho Ht Hb. apply (load_same_app_unknown _ _ _ _ _ _ Hm Ho Ht).
  destruct (blueprint_get bp tag) as [d|] eqn:E; [|done].
  exfalso. apply Hb. apply blueprint_get_is_Some. rewrite E. eauto.
Qed.

(** C9 (lookup not found).  When [AppLookupObject] answers: if the answer
    carries no object id, [_lookup_to_id] raises [NotFoundError] with the
    message of the answer after that one call, and so do [_lookup] and
    [load] of a reference to another application, which hand the error
    on; otherwise [_lookup_to_id] returns the id of the answer. *)
Theorem lookup_not_found app_name tag namespace s response :
  srv_lookup server (events s) app_name tag namespace = inr response ->
  let s1 := log_event (EvAppLookupObject app_name tag namespace) s in
  (resp_object_id response = "" ->
   let e := NotFoundError (resp_error_message response) in
   _lookup_to_id server app_name tag namespace s = (Raised e, s1) /\
   _lookup server app_name tag namespace s = (Raised e, s1) /\
   forall fuel obj existing,
     _local_uuid_to_object_id s !! obj = None ->
     objects s !! obj = Some (Ref (Some app_name) tag namespace None) ->
     load bp app_id server (S fuel) obj existing s = (Raised e, s1)) /\
  (resp_object_id response <> "" ->
   _lookup_to_id server app_name tag namespace s
   = (Returned (resp_object_id response), s1)).
Proof.
  intros Hl s1. split.
  - intros Hid.
    assert (E : _lookup_to_id server app_name tag namespace s
                = (Raised (NotFoundError (resp_error_message response)), s1)).
    { unfold _lookup_to_id, bind, get, emit, raise. simpl. rewrite Hl, Hid. done. }
    split; [exact E|]. split.
    + unfold _lookup, bind. by rewrite E.
    + intros fuel obj existing Hm Ho.
      by rewrite (load_cross_app _ _ _ _ _ _ _ Hm Ho), E.
  - intros Hid. unfold _lookup_to_id, bind, get, emit, ret. simpl. rewrite Hl.
    apply String.eqb_neq in Hid. by rewrite Hid.
Qed.

(** C10, as the code has it (the reconciliation comes before the store).
    For a definition whose creation logic yields [None], loaded without an
    existing id or with one that starts with [im-]: the first [load]
    raises and leaves [None] memoized, and from then on every [load] of
    the object returns [None] without raising and without a new event. *)
Theorem load_none_memoized fuel obj existing s _load s1 :
  _local_uuid_to_object_id s !! obj = None ->
  objects s !! obj = Some (Definition_ _load) ->
  intercept_coro server (fun awaitable => load bp app_id server fuel awaitable None)
                 (_load app_id existing)
                 (log_event (EvLoad obj existing) s)
  = (Returned None, s1) ->
  match existing with
  | Some e => String.prefix "im-" e = true
  | None => True
  end ->
  load bp app_id server (S fuel) obj existing s
  = (Raised ObjectIdIsNone, memoize obj None s1) /\
  forall s2, later bp (memoize obj None s1) s2 ->
  forall fuel' existing',
    load bp app_id server (S fuel') obj existing' s2 = (Returned None, s2).
Proof.
  intros Hm Ho Hrun Hex. split.
  - rewrite (load_definition _ _ _ _ _ Hm Ho), Hrun.
    assert (reconcile existing None = None) as ->; [|done].
    destruct existing as [e|]; [|done]. simpl. by rewrite Hex.
  - intros s2 L fuel' existing'. apply load_hit.
    eapply lookup_weaken; [|apply L]. simpl. apply lookup_insert_eq.
Qed.

End Session.

(** ** The theorems at work on the concrete session *)

Module Witness.
Import Scenario.

Lemma fresh_valid : memo_valid fresh.
Proof.
  intros u [v Hv]. cbn [fresh _local_uuid_to_object_id] in Hv.
  by rewrite lookup_empty in Hv.
Qed.

Lemma create_awaits_nothing n request : awaits_below rank n (create request).
Proof. constructor. intros [e|object_id]; constructor. Qed.

Ltac acyclic_case :=
  first
    [ exact I
    | intros; apply create_awaits_nothing
    | intros; apply awaits_return
    | intros; apply awaits_object;
      [simpl; lia|intros; apply create_awaits_nothing]
    | let d := fresh "d" in
      let Hd := fresh "Hd" in
      intros d Hd; vm_compute in Hd;
      first [discriminate Hd|inversion Hd; subst; simpl; lia] ].

Lemma store_acyclic : acyclic blueprint store rank.
Proof.
  intros u o Hu.
  do 13 (destruct u as [|u]; [inversion Hu; subst; simpl; acyclic_case|]).
  inversion Hu.
Qed.

Lemma ghost_not_in_blueprint : "ghost" ∉ map fst blueprint.
Proof.
  intros H. repeat (apply elem_of_cons in H as [H|H]; [discriminate|]).
  by apply elem_of_nil in H.
Qed.

(** C1 at the session that has memoized the definition of tag a. *)
Lemma load_memoized_witness :
  _local_uuid_to_object_id memoized !! 0 = Some (Some "ob-a") /\
  load' 1 0 None memoized = (Returned (Some "ob-a"), memoized) /\
  _local_uuid_to_object_id (load' 5 1 None memoized).2 !! 0 = Some (Some "ob-a") /\
  count_loads 0 (events (load' 5 1 None memoized).2) = 0.
Proof.
  assert (H : _local_uuid_to_object_id memoized !! 0 = Some (Some "ob-a"))
    by reflexivity.
  destruct (load_memoized blueprint "ap-1" "cl-1" server memoized 0 (Some "ob-a") H)
    as (H1 & H2 & _).
  split; [exact H|]. split; [apply H1|].
  apply (H2 5 1 None (load' 5 1 None memoized).1). apply surjective_pairing.
Defined.

(** C2 at a definition whose creation logic gives [fn-2], and at a
    reference into the application X. *)
Lemma load_reconciles_witness :
  load' 1 9 (Some "fn-1") fresh
  = (Raised (ExistingIdMismatch "fn-1" (Some "fn-2")),
     log_event (EvLoad 9 (Some "fn-1")) fresh) /\
  load' 1 9 (Some "fn-2") fresh
  = (Returned (Some "fn-2"),
     memoize 9 (Some "fn-2") (log_event (EvLoad 9 (Some "fn-2")) fresh)) /\
  load' 1 9 (Some "im-1") fresh
  = (Returned (Some "fn-2"),
     memoize 9 (Some "fn-2") (log_event (EvLoad 9 (Some "im-1")) fresh)) /\
  load' 1 8 (Some "im-1") fresh
  = (Raised ObjectIdIsNone, memoize 8 None (log_event (EvLoad 8 (Some "im-1")) fresh)) /\
  load' 1 12 (Some "fn-1") fresh = load' 1 12 None fresh.
Proof.
  destruct (load_reconciles blueprint "ap-1" server 0 9 fresh) as [Hdef _].
  destruct (load_reconciles blueprint "ap-1" server 0 8 fresh) as [Hnone _].
  destruct (load_reconciles blueprint "ap-1" server 1 12 fresh) as [_ Href].
  split; [|split; [|split; [|split]]].
  - apply (Hdef "fn-1" (fun _ _ => CoReturn (Some "fn-2")) (Some "fn-2"));
      (reflexivity || discriminate).
  - apply (Hdef "fn-2" (fun _ _ => CoReturn (Some "fn-2")) (Some "fn-2")
             (log_event (EvLoad 9 (Some "fn-2")) fresh));
      try reflexivity. by left.
  - apply (Hdef "im-1" (fun _ _ => CoReturn (Some "fn-2")) (Some "fn-2")
             (log_event (EvLoad 9 (Some "im-1")) fresh));
      try reflexivity. by right.
  - apply (Hnone "im-1" (fun _ _ => CoReturn None) None
             (log_event (EvLoad 8 (Some "im-1")) fresh));
      reflexivity.
  - apply (Href (Some "X") "q" NS None). reflexivity.
Defined.

(** C2 as stated fails on a reference: loaded with the existing id [fn-1],
    which is not content-addressed, it resolves to [qu-1] and [load]
    returns that id. *)
Lemma load_reference_not_reconciled :
  (load' 1 12 (Some "fn-1") fresh).1 = Returned (Some "qu-1") /\
  "qu-1" <> "fn-1" /\ String.prefix "im-" "fn-1" = false.
Proof. split; [reflexivity|]. split; [discriminate|reflexivity]. Qed.

(** C3 at the diamond: b and c both refer to a. *)
Lemma same_app_reference_resolution_witness :
  let s1 := (load' 3 3 None fresh).2 in
  let s2 := (load' 5 1 None s1).2 in
  load' 3 3 None fresh = (Returned (Some "ob-a"), s1) /\
  load' 1 4 None s2 = (Returned (Some "ob-a"), memoize 4 (Some "ob-a") s2) /\
  count_loads 0 (events s1) = 1 /\
  count_loads 0 (events s2) = 1.
Proof.
  intros s1 s2.
  assert (E : load' 3 3 None fresh = (Returned (Some "ob-a"), s1)) by reflexivity.
  assert (L : later blueprint s1 s2).
  { apply (load_later blueprint "ap-1" server 5 1 None s1 (load' 5 1 None s1).1).
    apply surjective_pairing. }
  destruct (same_app_reference_resolution blueprint "ap-1" server rank fresh 3 "a" NS
              eq_refl eq_refl) as (_ & _ & H).
  destruct (H 3 None "ob-a" s1 E) as [Hshare Honce].
  destruct (Honce 0 (fun _ _ => create "a") eq_refl eq_refl eq_refl eq_refl store_acyclic)
    as [Hc1 Hc2].
  split; [exact E|]. split; [|split].
  - apply (Hshare s2 4 NS L); reflexivity.
  - exact Hc1.
  - rewrite (Hc2 s2 L). exact Hc1.
Defined.

(** C4 at the blueprint a, b, c, and at its second tag. *)
Lemma create_all_objects_registers_witness :
  let run := create_all_objects blueprint "ap-1" "cl-1" server 5 fresh in
  run.1 = Returned tt /\
  count_set_objects (events run.2) = 1 /\
  exists s1,
    load_tags blueprint "ap-1" server 5 ["a"; "b"; "c"] fresh = (Returned tt, s1) /\
    events run.2
    = events s1 ++ [EvAppSetObjects "ap-1" (object_id <$> _tag_to_object s1) "cl-1"] /\
    (forall t, is_Some ((object_id <$> _tag_to_object s1) !! t) <-> t ∈ ["a"; "b"; "c"]) /\
    exists s_a object_id' s_b,
      load_tags blueprint "ap-1" server 5 ["a"] fresh = (Returned tt, s_a) /\
      bind (ref None "b") (fun obj => load' 5 obj None) s_a
      = (Returned (Some object_id'), s_b) /\
      load_tags blueprint "ap-1" server 5 ["c"] s_b = (Returned tt, s1) /\
      (object_id <$> _tag_to_object s1) !! "b" = Some (Some object_id').
Proof.
  intros run.
  destruct (create_all_objects_registers blueprint "ap-1" "cl-1" server 5 fresh
              run.1 run.2 fresh_valid) as [[Hr _]|(s1 & E1 & _ & E2 & Hc & Hk & Hl)].
  - intros t [h Ht]. cbn [fresh _tag_to_object] in Ht. by rewrite lookup_empty in Ht.
  - apply surjective_pairing.
  - exfalso. apply Hr. reflexivity.
  - split; [reflexivity|]. split; [exact Hc|]. exists s1.
    split; [exact E1|]. split; [exact E2|]. split; [exact Hk|].
    destruct (Hl ["a"] "b" ["c"] eq_refl) as (s_a & id & s_b & Ea & Eb & Ec & _ & _ & _ & Hid).
    by exists s_a, id, s_b.
Defined.

(** C4 as stated fails: in a session that has the tag [ghost] resolved,
    [create_all_objects] succeeds and the one [AppSetObjects] it sends has
    the key [ghost], which is no tag of the blueprint. *)
Lemma create_all_objects_registers_foreign_tag :
  let run := create_all_objects blueprint "ap-1" "cl-1" server 5 container in
  let object_ids : gmap string (option string) :=
    list_to_map [("a", Some "ob-a"); ("b", Some "ob-b"); ("c", Some "ob-c");
                 ("ghost", Some "ob-1")] in
  run.1 = Returned tt /\
  events run.2
  = [EvLoad 0 None; EvRpc "a"; EvLoad 1 None; EvRpc "b"; EvLoad 2 None; EvRpc "c";
     EvAppSetObjects "ap-1" object_ids "cl-1"] /\
  object_ids !! "ghost" = Some (Some "ob-1") /\
  "ghost" ∉ map fst blueprint.
Proof.
  split; [vm_compute; reflexivity|]. split; [vm_compute; reflexivity|].
  split; [vm_compute; reflexivity|exact ghost_not_in_blueprint].
Qed.


(** C6 at a reference into the application X with the definition of q. *)
Lemma load_cross_app_embedded_witness :
  exists s',
    load' 1 5 None fresh = (Returned (Some "qu-1"), s') /\
    events s' = [EvDeploy "X" [("_object", 6)]; EvAppLookupObject "X" "q" NS] /\
    _local_uuid_to_object_id s' = <[5 := Some "qu-1"]> ∅.
Proof.
  apply (load_cross_app_embedded blueprint "ap-1" server 0 5 None fresh "X" "q" NS 6
           {| resp_object_id := "qu-1"; resp_error_message := "no such object" |});
    (reflexivity || discriminate).
Defined.

(** C6 as stated fails: the blueprint that is deployed has the one tag
    [_object], not the tag [q] of the reference. *)
Lemma embedded_definition_deployed_under_object_tag :
  events (load' 1 5 None fresh).2
  = [EvDeploy "X" [("_object", 6)]; EvAppLookupObject "X" "q" NS] /\
  map fst [("_object", 6)] <> ["q"].
Proof. split; [reflexivity|discriminate]. Qed.

(** C7 at the definition of b, which awaits a reference to a before its
    creation call, and at the loop over a, b, c. *)
Lemma load_depth_first_witness :
  let s0 := log_event (EvLoad 1 None) fresh in
  let coro := CoAwaitObject 3 (fun _ => create "b") in
  let run := load' 6 1 None fresh in
  let inner := intercept_coro server (fun a => load' 5 a None) coro s0 in
  let both := intercept_coro server (fun a => load' 5 a None)
                             (await_all [3; 4] (create "b")) fresh in
  let loop := load_tags blueprint "ap-1" server 5 (["a"] ++ "b" :: ["c"]) fresh in
  (exists r0 s',
      intercept_coro server (fun a => load' 5 a None) coro s0 = (r0, s') /\
      events run.2 = events s' /\
      match r0 with
      | Returned _ => True
      | Raised e => run.1 = Raised e
      | Dangling => run.1 = Dangling
      | OutOfFuel => run.1 = OutOfFuel
      end) /\
  (exists r1 s1,
      load' 5 3 None s0 = (r1, s1) /\
      events s0 `prefix_of` events s1 /\ events s1 `prefix_of` events inner.2 /\
      match r1 with
      | Returned v =>
          _local_uuid_to_object_id s1 !! 3 = Some v /\
          (_local_uuid_to_object_id s0 !! 3 = None -> is_Some v) /\
          intercept_coro server (fun a => load' 5 a None) (create "b") s1
          = (inner.1, inner.2) /\
          (forall request k',
              create "b" = CoAwaitRpc request k' ->
              (events s1 ++ [EvRpc request]) `prefix_of` events inner.2)
      | _ => inner.2 = s1 /\ inner.1 = r1
      end) /\
  (exists s1,
      (forall d, d ∈ [3; 4] ->
         exists object_id', _local_uuid_to_object_id s1 !! d = Some (Some object_id')) /\
      intercept_coro server (fun a => load' 5 a None) (create "b") s1
      = (Returned (Some "ob-b"), both.2) /\
      (events s1 ++ [EvRpc "b"]) `prefix_of` events both.2) /\
  (exists r_a s_a,
      load_tags blueprint "ap-1" server 5 ["a"] fresh = (r_a, s_a) /\
      events fresh `prefix_of` events s_a /\
      match r_a with
      | Returned _ =>
          exists r_b s_b,
            bind (ref None "b") (fun obj => load' 5 obj None) s_a = (r_b, s_b) /\
            events s_a `prefix_of` events s_b /\
            events s_b `prefix_of` events loop.2 /\
            match r_b with
            | Returned _ =>
                load_tags blueprint "ap-1" server 5 ["c"] s_b = (loop.1, loop.2)
            | Raised e => loop.1 = Raised e /\ loop.2 = s_b
            | Dangling => loop.1 = Dangling /\ loop.2 = s_b
            | OutOfFuel => loop.1 = OutOfFuel /\ loop.2 = s_b
            end
      | _ => loop.2 = s_a /\ loop.1 = r_a
      end).
Proof.
  intros s0 coro run inner both loop.
  destruct (load_depth_first blueprint "ap-1" "cl-1" server 5)
    as (H1 & H2 & H3 & _ & H5).
  split; [|split; [|split]].
  - exact (H1 1 None fresh (fun _ _ => coro) run.1 run.2 eq_refl eq_refl
              (surjective_pairing _)).
  - exact (H2 3 (fun _ => create "b") s0 inner.1 inner.2 (surjective_pairing _)).
  - destruct (H3 [3; 4] (create "b") fresh (Returned (Some "ob-b")) both.2 eq_refl)
      as [(s1 & _ & _ & Hids & Ek & Hrpc)|(pre & d & post & s1 & _ & _ & _ & _ & Hr)].
    + exists s1. split; [|split; [exact Ek|exact (Hrpc "b" _ eq_refl)]].
      apply Hids. split.
      * intros u. cbn [fresh _local_uuid_to_object_id]. by rewrite lookup_empty.
      * intros t h. cbn [fresh _tag_to_object]. by rewrite lookup_empty.
    + by destruct (Hr (Some "ob-b")).
  - exact (H5 ["a"] "b" ["c"] fresh loop.1 loop.2 (surjective_pairing _)).
Defined.

(** C7 as stated fails: the definition of b sends its creation call and
    only then awaits the reference to a, on which it depends; its call is
    on the log before the creation logic of a has started. *)
Lemma creation_call_before_dependency :
  let run := load Eager.eager_blueprint "ap-1" server 5 1 None Eager.eager_session in
  run.1 = Returned (Some "ob-b") /\
  events run.2 = [EvLoad 1 None; EvRpc "b"; EvLoad 0 None; EvRpc "a"] /\
  _local_uuid_to_object_id run.2 !! 0 = Some (Some "ob-a") /\
  _local_uuid_to_object_id
    (log_event (EvRpc "b") (log_event (EvLoad 1 None) Eager.eager_session)) !! 0 = None.
Proof. repeat split; vm_compute; reflexivity. Qed.

(** The whole run over the diamond: a is created once, before b and c, in
    the order of the blueprint, and one registration closes the run. *)
Example create_all_objects_diamond :
  let run := create_all_objects blueprint "ap-1" "cl-1" server 5 fresh in
  let object_ids : gmap string (option string) :=
    list_to_map [("a", Some "ob-a"); ("b", Some "ob-b"); ("c", Some "ob-c")] in
  run.1 = Returned tt /\
  events run.2
  = [EvLoad 0 None; EvRpc "a";
     EvLoad 1 None; EvRpc "b";
     EvLoad 2 None; EvRpc "c";
     EvAppSetObjects "ap-1" object_ids "cl-1"].
Proof. split; vm_compute; reflexivity. Qed.

(** C8 at a reference to a tag that nothing defines. *)
Lemma load_unknown_tag_raises_witness :
  load' 1 10 None fresh = (Raised (KeyError "ghost"), fresh).
Proof.
  apply (load_unknown_tag_raises blueprint "ap-1" server 0 10 None fresh "ghost" NS);
    try reflexivity.
  exact ghost_not_in_blueprint.
Defined.

(** C8 as stated fails: in a session that has the tag resolved, [load]
    returns its id although the blueprint has no such key. *)
Lemma load_resolved_tag_outside_blueprint :
  load' 1 10 None container
  = (Returned (Some "ob-1"), memoize 10 (Some "ob-1") container) /\
  "ghost" ∉ map fst blueprint.
Proof. split; [reflexivity|exact ghost_not_in_blueprint]. Qed.

(** C9 at the application Y, of which the server knows nothing. *)
Lemma lookup_not_found_witness :
  let s1 := log_event (EvAppLookupObject "Y" "q" NS) fresh in
  _lookup_to_id server "Y" "q" NS fresh = (Raised (NotFoundError "no such object"), s1) /\
  load' 1 7 None fresh = (Raised (NotFoundError "no such object"), s1).
Proof.
  intros s1.
  destruct (lookup_not_found blueprint "ap-1" server "Y" "q" NS fresh
              {| resp_object_id := ""; resp_error_message := "no such object" |}
              eq_refl) as [H _].
  destruct (H eq_refl) as (H1 & _ & H3).
  split; [exact H1|]. apply H3; reflexivity.
Defined.

(** C10 at a definition whose creation logic gives [None]. *)
Lemma load_none_memoized_witness :
  let s1 := memoize 8 None (log_event (EvLoad 8 None) fresh) in
  load' 1 8 None fresh = (Raised ObjectIdIsNone, s1) /\
  load' 1 8 None s1 = (Returned None, s1).
Proof.
  intros s1.
  destruct (load_none_memoized blueprint "ap-1" server 0 8 None fresh
              (fun _ _ => CoReturn None) (log_event (EvLoad 8 None) fresh)
              eq_refl eq_refl eq_refl I) as [H1 H2].
  split; [exact H1|]. apply H2. apply later_refl.
Defined.

(** C10 as stated fails: loaded with the existing id [fn-1], the same
    definition raises the mismatch, nothing is memoized, and the next
    [load] runs the creation logic again. *)
Lemma load_none_not_memoized_on_mismatch :
  let first := load' 1 8 (Some "fn-1") fresh in
  let second := load' 1 8 (Some "fn-1") first.2 in
  first.1 = Raised (ExistingIdMismatch "fn-1" None) /\
  _local_uuid_to_object_id first.2 !! 8 = None /\
  second.1 = Raised (ExistingIdMismatch "fn-1" None) /\
  count_loads 8 (events second.2) = 2.
Proof. repeat split; reflexivity. Qed.

End Witness.

(** ** Beyond the load algorithm: what a successful run stores *)

Section Coverage.

Variable bp : list (string * LocalUUID).
Variable app_id : string.
Variable client_id : string.
Variable server : Server.

Abbreviation load_ := (load bp app_id server).
Abbreviation load_tags_ := (load_tags bp app_id server).
Abbreviation create_all_objects_ := (create_all_objects bp app_id client_id server).

Lemma no_none_alloc s o : no_none s -> no_none (alloc o s).
Proof. intros H. exact H. Qed.

Lemma load_tags_no_none fuel tags : forall s s',
  no_none s -> load_tags_ fuel tags s = (Returned tt, s') -> no_none s'.
Proof.
  induction tags as [|tag tags IH]; intros s s' Hs E; simpl in E.
  { by inversion E; subst. }
  unfold bind at 1, ref, new_object in E. unfold bind at 1 in E.
  destruct (load _ _ _ fuel _ None _) as [[w|e| |] s1] eqn:El; try discriminate.
  eapply IH; [|exact E].
  eapply load_no_none; [|exact El]. by apply no_none_alloc.
Qed.

(** X1.  In a session that holds no [None] in place of an id, a [load]
    that returns gives an id, never [None], and a [create_all_objects]
    that succeeds registers an id for every tag it sends; neither leaves a
    [None] behind in [_local_uuid_to_object_id] or [_tag_to_object]. *)
Theorem success_stores_ids s :
  no_none s ->
  (forall fuel obj existing v s',
      load bp app_id server fuel obj existing s = (Returned v, s') ->
      is_Some v /\ no_none s') /\
  (forall fuel s',
      create_all_objects bp app_id client_id server fuel s = (Returned tt, s') ->
      no_none s' /\
      exists evs object_ids,
        events s' = evs ++ [EvAppSetObjects app_id object_ids client_id] /\
        forall tag v, object_ids !! tag = Some v -> is_Some v).
Proof.
  intros Hs. split.
  - intros fuel obj existing v s' E.
    destruct (load_no_none _ _ _ _ _ _ _ _ _ Hs E). by split.
  - intros fuel s' E.
    apply create_all_objects_run in E as (r1 & s1 & E1 & E2).
    destruct r1 as [[]|e| |]; destruct E2 as [-> E2]; try discriminate.
    pose proof (load_tags_no_none _ _ _ _ Hs E1) as H1.
    split; [exact H1|].
    exists (events s1), (object_id <$> _tag_to_object s1). split; [done|].
    intros tag v. rewrite lookup_fmap.
    destruct (_tag_to_object s1 !! tag) as [h|] eqn:Ht; [|discriminate].
    simpl. intros [= <-]. destruct (object_id h) eqn:Hid; [eauto|].
    by destruct (proj2 H1 tag h Ht).
Qed.

Lemma memo_valid_fresh_ref s tag v :
  memo_valid s ->
  memo_valid (memoize (length (objects s)) v
                      (alloc (Ref None tag DEPLOYMENT_NAMESPACE_ACCOUNT None) s)).
Proof.
  intros Hv u Hu. simpl in *. rewrite length_app. simpl.
  destruct (decide (u = length (objects s))) as [->|Hne]; [lia|].
  rewrite lookup_insert_ne in Hu by done. specialize (Hv u Hu). lia.
Qed.

Lemma fresh_ref_not_memoized s :
  memo_valid s -> _local_uuid_to_object_id s !! length (objects s) = None.
Proof.
  intros Hv. destruct (_ !! _) eqn:Hc; [|done].
  assert (length (objects s) < length (objects s)) by (apply Hv; eauto). lia.
Qed.

(** Over tags that are all resolved to ids the loop of
    [create_all_objects] only makes and memoizes its references. *)
Lemma load_tags_resolved fuel tags : forall s,
  memo_valid s ->
  (forall t, t ∈ tags ->
             exists h object_id', _tag_to_object s !! t = Some h /\
                                  object_id h = Some object_id') ->
  exists s',
    load_tags_ (S fuel) tags s = (Returned tt, s') /\
    events s' = events s /\
    _tag_to_object s' = _tag_to_object s /\
    _tag_to_existing_id s' = _tag_to_existing_id s.
Proof.
  induction tags as [|tag tags IH]; intros s Hv Ht.
  { exists s. by split. }
  destruct (Ht tag) as (h & id & Hh & Hid); [apply elem_of_cons; by left|].
  set (r := length (objects s)).
  set (s0 := alloc (Ref None tag DEPLOYMENT_NAMESPACE_ACCOUNT None) s).
  assert (El : load_ (S fuel) r None s0 = (Returned (Some id), memoize r (Some id) s0)).
  { rewrite (load_same_app_resolved bp app_id server fuel r None s0 tag
                                     DEPLOYMENT_NAMESPACE_ACCOUNT h).
    - unfold store_and_return. by rewrite Hid.
    - exact (fresh_ref_not_memoized s Hv).
    - unfold s0, r. simpl. by rewrite list_lookup_middle.
    - exact Hh. }
  destruct (IH (memoize r (Some id) s0)) as (s' & E & He & Hto & Hte).
  { by apply memo_valid_fresh_ref. }
  { intros t Hin. apply Ht. apply elem_of_cons. by right. }
  exists s'. split; [|by split].
  change (load_tags_ (S fuel) (tag :: tags) s)
    with (bind (ref None tag)
               (fun obj => bind (load_ (S fuel) obj None)
                                (fun _ => load_tags_ (S fuel) tags)) s).
  unfold bind at 1, ref, new_object. fold r s0. unfold bind at 1.
  rewrite El. exact E.
Qed.

(** X2.  After a [create_all_objects] that succeeded, in a session without
    [None] ids, another [create_all_objects] creates nothing: it adds the
    one event [AppSetObjects], with the map that the first run sent, and
    leaves [_tag_to_object] as it is. *)
Theorem create_all_objects_again fuel s s' :
  memo_valid s -> no_none s ->
  create_all_objects bp app_id client_id server fuel s = (Returned tt, s') ->
  let object_ids := object_id <$> _tag_to_object s' in
  (exists evs, events s' = evs ++ [EvAppSetObjects app_id object_ids client_id]) /\
  forall fuel', exists r s'',
    create_all_objects bp app_id client_id server (S fuel') s' = (r, s'') /\
    events s'' = events s' ++ [EvAppSetObjects app_id object_ids client_id] /\
    _tag_to_object s'' = _tag_to_object s' /\
    r = match srv_set_objects server (events s') app_id object_ids client_id with
        | Some e => Raised e
        | None => Returned tt
        end.
Proof.
  intros Hv Hs E object_ids.
  apply create_all_objects_run in E as (r1 & s1 & E1 & E2).
  destruct r1 as [[]|e| |]; destruct E2 as [-> E2]; try discriminate.
  split; [by exists (events s1)|]. intros fuel'.
  pose proof (load_tags_no_none _ _ _ _ Hs E1) as H1.
  pose proof (load_tags_later _ _ _ _ _ _ _ _ E1) as L.
  set (s' := log_event (EvAppSetObjects app_id (object_id <$> _tag_to_object s1)
                                        client_id) s1) in *.
  destruct (load_tags_resolved fuel' (map fst bp) s') as (s2 & E3 & He & Hto & Hte).
  { exact (later_valid _ _ _ L Hv). }
  { intros t Ht.
    destruct (load_tags_resolves _ _ _ _ _ _ _ Hv E1 t Ht) as [h Hh].
    exists h. destruct (object_id h) as [id|] eqn:Hid; [by exists id|].
    by destruct (proj2 H1 t h Hh). }
  unfold create_all_objects. unfold bind at 1. rewrite E3.
  unfold bind, get, AppSetObjects, bind, get, emit, raise, ret. simpl.
  unfold object_ids. simpl in Hto, He |- *. rewrite Hto, He. clear E2.
  destruct (srv_set_objects _ _ _ _ _); eexists _, _;
    (split; [reflexivity|]); simpl; by rewrite ?Hto, ?He.
Qed.

(** X3.  The map that a successful [create_all_objects] sends is the whole
    of [_tag_to_object]: its keys are the tags that were resolved before
    the run together with the tags of the blueprint, and a tag that was
    resolved before goes out with the id it had. *)
Theorem create_all_objects_sends_all fuel s s' :
  memo_valid s ->
  create_all_objects bp app_id client_id server fuel s = (Returned tt, s') ->
  exists evs object_ids,
    events s' = evs ++ [EvAppSetObjects app_id object_ids client_id] /\
    (forall t, is_Some (object_ids !! t) <->
               is_Some (_tag_to_object s !! t) \/ t ∈ map fst bp) /\
    (forall t h, _tag_to_object s !! t = Some h -> object_ids !! t = Some (object_id h)).
Proof.
  intros Hv E.
  apply create_all_objects_run in E as (r1 & s1 & E1 & E2).
  destruct r1 as [[]|e| |]; destruct E2 as [-> E2]; try discriminate.
  pose proof (load_tags_later _ _ _ _ _ _ _ _ E1) as L.
  exists (events s1), (object_id <$> _tag_to_object s1). split; [done|]. split.
  - intros t. rewrite lookup_fmap, fmap_is_Some. split.
    + intros Hs. destruct (_tag_to_object s !! t) eqn:Ht; [left; eauto|right].
      apply blueprint_get_is_Some. eapply later_new_tags; eauto.
    + intros [[h Hh]|Ht].
      * exists h. eapply lookup_weaken; [exact Hh|apply L].
      * eapply load_tags_resolves; eauto.
  - intros t h Hh. rewrite lookup_fmap.
    erewrite lookup_weaken; [|exact Hh|apply L]. done.
Qed.

Lemma wp_chain {A B} (R : State -> State -> Prop) (m : M A) (f : A -> M B) s0 s :
  (forall a b c, R a b -> R b c -> R a c) ->
  R s0 s ->
  wp m s (fun _ s1 => R s s1) ->
  (forall a s1, R s0 s1 -> wp (f a) s1 (fun _ s2 => R s0 s2)) ->
  wp (bind m f) s (fun _ s2 => R s0 s2).
Proof.
  intros Ht H0 Hm Hf. unfold wp, bind in *.
  destruct (m s) as [[a|e| |] s1]; simpl in *; try (eapply Ht; eassumption).
  apply Hf. eapply Ht; eassumption.
Qed.

(** *** Where existing ids come from *)

Lemma existing_trace_refl s : existing_trace bp s s.
Proof. split; [done|]. exists []. by rewrite app_nil_r. Qed.

Lemma existing_trace_trans s1 s2 s3 :
  existing_trace bp s1 s2 -> existing_trace bp s2 s3 -> existing_trace bp s1 s3.
Proof.
  intros [X1 (e1 & E1 & F1)] [X2 (e2 & E2 & F2)]. split; [congruence|].
  exists (e1 ++ e2). rewrite E2, E1, <- app_assoc. split; [done|].
  apply Forall_app. split; [done|]. by rewrite <- X1.
Qed.

Lemma existing_trace_log_event s e :
  existing_event bp (_tag_to_existing_id s) e -> existing_trace bp s (log_event e s).
Proof. intros He. split; [done|]. exists [e]. split; [done|]. by constructor. Qed.

Lemma intercept_coro_existing_trace (interceptor : LocalUUID -> M (option ObjectID)) :
  (forall a s, wp (interceptor a) s (fun _ s' => existing_trace bp s s')) ->
  forall coro s,
    wp (intercept_coro server interceptor coro) s (fun _ s' => existing_trace bp s s').
Proof.
  intros Hi. induction coro as [v|a k IH|request k IH|e]; intros s; simpl.
  - apply existing_trace_refl.
  - apply wp_chain;
      [apply existing_trace_trans|apply existing_trace_refl|apply Hi|].
    intros v s1 H1. unfold wp. eapply existing_trace_trans; [exact H1|apply IH].
  - apply wp_chain; [apply existing_trace_trans|apply existing_trace_refl| |].
    + unfold wp, rpc, bind, get, emit; simpl. by apply existing_trace_log_event.
    + intros v s1 H1. unfold wp. eapply existing_trace_trans; [exact H1|apply IH].
  - apply existing_trace_refl.
Qed.

Lemma load_existing_trace fuel : forall obj existing s,
  existing_of_tag bp (_tag_to_existing_id s) obj existing ->
  wp (load_ fuel obj existing) s (fun _ s' => existing_trace bp s s').
Proof.
  induction fuel as [|fuel IH]; intros obj existing s Hex.
  { apply existing_trace_refl. }
  unfold wp. destruct (load_ (S fuel) obj existing s) as [r s'] eqn:E. simpl.
  destruct (_local_uuid_to_object_id s !! obj) as [cached|] eqn:Hm.
  { rewrite (load_hit _ _ _ _ _ _ _ _ Hm) in E. inversion E; subst.
    apply existing_trace_refl. }
  destruct (objects s !! obj) as [o|] eqn:Ho;
    [|rewrite load_dangling in E by done; inversion E; subst;
      apply existing_trace_refl].
  destruct o as [_load|[app_name|] tag namespace [d|]].
  - rewrite (load_definition _ _ _ _ _ _ _ _ Hm Ho) in E.
    assert (Hrun : wp (intercept_coro server (fun a => load_ fuel a None)
                                      (_load app_id existing))
                      (log_event (EvLoad obj existing) s)
                      (fun _ s1 => existing_trace bp s s1)).
    { unfold wp.
      apply existing_trace_trans with (s2 := log_event (EvLoad obj existing) s).
      - by apply existing_trace_log_event.
      - apply intercept_coro_existing_trace. intros a s0. by apply IH. }
    unfold wp in Hrun.
    destruct (intercept_coro _ _ _ _) as [[w|e| |] s1]; simpl in Hrun;
      try (inversion E; subst; exact Hrun).
    destruct (reconcile existing w); [inversion E; subst; exact Hrun|].
    unfold store_and_return in E. destruct w; inversion E; subst; exact Hrun.
  - rewrite (load_cross_app_deploy _ _ _ _ _ _ _ _ _ _ _ Hm Ho) in E.
    unfold deploy, _lookup_to_id, bind, get, emit, raise, ret in E. simpl in E.
    assert (R1 : existing_trace bp s
                   (log_event (EvDeploy app_name [("_object", d)]) s))
      by (by apply existing_trace_log_event).
    destruct (srv_deploy _ _ _ _); [inversion E; subst; exact R1|].
    assert (R2 : existing_trace bp s
                   (log_event (EvAppLookupObject app_name tag namespace)
                      (log_event (EvDeploy app_name [("_object", d)]) s))).
    { eapply existing_trace_trans; [exact R1|]. by apply existing_trace_log_event. }
    simpl in E. destruct (srv_lookup _ _ _ _ _) as [e|response];
      [inversion E; subst; exact R2|].
    destruct (String.eqb _ _); inversion E; subst; exact R2.
  - rewrite (load_cross_app _ _ _ _ _ _ _ _ _ _ Hm Ho) in E.
    unfold _lookup_to_id, bind, get, emit, raise, ret in E. simpl in E.
    assert (R2 : existing_trace bp s
                   (log_event (EvAppLookupObject app_name tag namespace) s))
      by (by apply existing_trace_log_event).
    destruct (srv_lookup _ _ _ _ _) as [e|response];
      [inversion E; subst; exact R2|].
    destruct (String.eqb _ _); inversion E; subst; exact R2.
  - rewrite (load_same_app_definition _ _ _ _ _ _ _ _ _ _ Hm Ho) in E.
    inversion E; subst. apply existing_trace_refl.
  - destruct (_tag_to_object s !! tag) as [h|] eqn:Ht.
    + rewrite (load_same_app_resolved _ _ _ _ _ _ _ _ _ _ Hm Ho Ht) in E.
      inversion E; subst. exact (existing_trace_refl s).
    + destruct (blueprint_get bp tag) as [real_obj|] eqn:Hb.
      * rewrite (load_same_app_fetch _ _ _ _ _ _ _ _ _ _ Hm Ho Ht Hb) in E.
        assert (Hrun : wp (load_ fuel real_obj (_tag_to_existing_id s !! tag)) s
                          (fun _ s1 => existing_trace bp s s1)).
        { apply IH. destruct (_tag_to_existing_id s !! tag) eqn:Hx; [|done].
          simpl. eauto. }
        unfold wp in Hrun.
        destruct (load _ _ _ fuel real_obj _ s) as [[w|e| |] s1]; simpl in Hrun;
          inversion E; subst; exact Hrun.
      * rewrite (load_same_app_unknown _ _ _ _ _ _ _ _ _ Hm Ho Ht Hb) in E.
        inversion E; subst. apply existing_trace_refl.
Qed.

Lemma load_tags_existing_trace fuel tags : forall s,
  wp (load_tags_ fuel tags) s (fun _ s' => existing_trace bp s s').
Proof.
  induction tags as [|tag tags IH]; intros s; simpl; [apply existing_trace_refl|].
  apply wp_chain; [apply existing_trace_trans|apply existing_trace_refl| |].
  { unfold wp, ref, new_object. simpl. exact (existing_trace_refl s). }
  intros obj s1 H1. unfold wp. eapply existing_trace_trans; [exact H1|].
  apply wp_chain; [apply existing_trace_trans|apply existing_trace_refl| |].
  { by apply load_existing_trace. }
  intros _ s2 H2. unfold wp. eapply existing_trace_trans; [exact H2|apply IH].
Qed.

(** X4.  [load] and [create_all_objects] never change
    [_tag_to_existing_id].  The existing id handed to the creation logic
    of an object is always either [None] or the entry of
    [_tag_to_existing_id] for a tag under which the blueprint has that very
    object, with one exception: the existing id that a caller gives to
    [load] of a definition that is not memoized is handed to the creation
    logic of that definition, which is the first thing this [load] does.
    [create_all_objects] gives none: in its runs an object that is under
    no tag of the blueprint, or whose tags have no entry there, is never
    created with an existing id. *)
Theorem existing_ids_come_from_tags s :
  (forall fuel obj existing r s',
      load bp app_id server fuel obj existing s = (r, s') ->
      _tag_to_existing_id s' = _tag_to_existing_id s /\
      exists evs,
        events s' = events s ++ evs /\
        (Forall (existing_event bp (_tag_to_existing_id s)) evs \/
         exists _load evs',
           objects s !! obj = Some (Definition_ _load) /\
           _local_uuid_to_object_id s !! obj = None /\
           evs = EvLoad obj existing :: evs' /\
           Forall (existing_event bp (_tag_to_existing_id s)) evs')) /\
  (forall fuel r s',
      create_all_objects bp app_id client_id server fuel s = (r, s') ->
      existing_trace bp s s').
Proof.
  split.
  - intros fuel obj existing r s' E.
    assert (Hnone : forall fuel' obj' r' s'',
               load_ fuel' obj' None s = (r', s'') -> existing_trace bp s s'').
    { intros fuel' obj' r' s'' E'.
      exact (wp_run _ _ _ _ _ (load_existing_trace fuel' obj' None s I) E'). }
    destruct (objects s !! obj) as [[_load|app_name tag namespace definition]|] eqn:Ho;
      cycle 1.
    { rewrite (load_ignores_existing _ _ _ _ _ existing None) in E by congruence.
      destruct (Hnone _ _ _ _ E) as [Hx (evs & He & F)]. eauto. }
    { rewrite (load_ignores_existing _ _ _ _ _ existing None) in E by congruence.
      destruct (Hnone _ _ _ _ E) as [Hx (evs & He & F)]. eauto. }
    destruct (_local_uuid_to_object_id s !! obj) as [cached|] eqn:Hm.
    { rewrite (load_ignores_existing _ _ _ _ _ existing None) in E by eauto.
      destruct (Hnone _ _ _ _ E) as [Hx (evs & He & F)]. eauto. }
    destruct fuel as [|fuel].
    { inversion E; subst. split; [done|]. exists []. rewrite app_nil_r. eauto. }
    rewrite (load_definition _ _ _ _ _ _ _ _ Hm Ho) in E.
    assert (Hrun : wp (intercept_coro server (fun a => load_ fuel a None)
                                      (_load app_id existing))
                      (log_event (EvLoad obj existing) s)
                      (fun _ s1 => existing_trace bp (log_event (EvLoad obj existing) s) s1)).
    { apply intercept_coro_existing_trace. intros a s0.
      by apply load_existing_trace. }
    unfold wp in Hrun.
    assert (Hs' : existing_trace bp (log_event (EvLoad obj existing) s) s').
    { destruct (intercept_coro _ _ _ _) as [[w|e| |] s1]; simpl in Hrun;
        try (inversion E; subst; exact Hrun).
      destruct (reconcile existing w); [inversion E; subst; exact Hrun|].
      unfold store_and_return in E. destruct w; inversion E; subst; exact Hrun. }
    destruct Hs' as [Hx (evs' & He & F)]. simpl in Hx, He, F.
    split; [exact Hx|]. exists (EvLoad obj existing :: evs'). split.
    + rewrite He, <- app_assoc. done.
    + right. by exists _load, evs'.
  - intros fuel r s' E.
    apply create_all_objects_run in E as (r1 & s1 & E1 & E2).
    pose proof (wp_run _ _ _ _ _ (load_tags_existing_trace fuel _ s) E1) as H1.
    destruct r1 as [[]|e| |]; destruct E2 as [-> _]; try exact H1.
    eapply existing_trace_trans; [exact H1|]. by apply existing_trace_log_event.
Qed.

(** *** What a failed load leaves behind *)

Lemma settled_below_refl rank n s : settled_below bp rank n s s.
Proof.
  split; [done|]. split.
  - intros u Hn [v Hs]. congruence.
  - intros t Hn [h Hs]. congruence.
Qed.

Lemma settled_below_trans rank n s1 s2 s3 :
  settled_below bp rank n s1 s2 -> settled_below bp rank n s2 s3 ->
  settled_below bp rank n s1 s3.
Proof.
  intros (O1 & M1 & T1) (O2 & M2 & T2). split; [congruence|]. split.
  - intros u Hn Hs.
    destruct (_local_uuid_to_object_id s2 !! u) eqn:E; [apply M1; eauto|by apply M2].
  - intros t Hn Hs.
    destruct (_tag_to_object s2 !! t) eqn:E; [apply T1; eauto|by apply T2].
Qed.

Lemma settled_below_mono rank n m s s' :
  n <= m -> settled_below bp rank n s s' -> settled_below bp rank m s s'.
Proof.
  intros Hle (O1 & M1 & T1). split; [done|]. split.
  - intros u Hn Hs. specialize (M1 u Hn Hs). lia.
  - intros t Hn Hs. destruct (T1 t Hn Hs) as (d & Hd & Hr). exists d. split; [done|lia].
Qed.

Lemma settled_below_memoize rank n s s1 u v :
  settled_below bp rank n s s1 -> rank u < n ->
  settled_below bp rank n s (memoize u v s1).
Proof.
  intros (O1 & M1 & T1) Hu. split; [done|]. split; [|exact T1].
  intros w Hn Hs. simpl in Hs.
  destruct (decide (w = u)) as [->|Hne]; [done|].
  rewrite lookup_insert_ne in Hs by done. by apply M1.
Qed.

Lemma settled_below_with_tag_to_object rank n s s1 tag h d :
  settled_below bp rank n s s1 -> blueprint_get bp tag = Some d -> S (rank d) < n ->
  settled_below bp rank n s (with_tag_to_object tag h s1).
Proof.
  intros (O1 & M1 & T1) Hd Hr. split; [done|]. split; [exact M1|].
  intros t Hn Hs. simpl in Hs.
  destruct (decide (t = tag)) as [->|Hne]; [eauto|].
  rewrite lookup_insert_ne in Hs by done. by apply T1.
Qed.

Lemma settled_below_not_memoized rank n s s1 u :
  settled_below bp rank n s s1 ->
  _local_uuid_to_object_id s !! u = None -> n <= rank u ->
  _local_uuid_to_object_id s1 !! u = None.
Proof.
  intros (_ & HM & _) Hn Hr.
  destruct (_local_uuid_to_object_id s1 !! u) eqn:Hc; [|done].
  assert (rank u < n) by (apply HM; [done|rewrite Hc; eauto]). lia.
Qed.

Lemma settled_below_unresolved rank n s s1 tag d :
  settled_below bp rank n s s1 ->
  _tag_to_object s !! tag = None -> blueprint_get bp tag = Some d -> n <= S (rank d) ->
  _tag_to_object s1 !! tag = None.
Proof.
  intros (_ & _ & HT) Hn Hd Hr.
  destruct (_tag_to_object s1 !! tag) eqn:Hc; [|done].
  destruct (HT tag Hn) as (d' & Hd' & Hr'); [rewrite Hc; eauto|].
  rewrite Hd in Hd'. inversion Hd'; subst. lia.
Qed.

Lemma intercept_coro_settled rank n (interceptor : LocalUUID -> M (option ObjectID)) :
  (forall a s, rank a < n -> acyclic bp (objects s) rank ->
               wp (interceptor a) s (fun _ s' => settled_below bp rank n s s')) ->
  forall coro, awaits_below rank n coro ->
  forall s, acyclic bp (objects s) rank ->
    wp (intercept_coro server interceptor coro) s
       (fun _ s' => settled_below bp rank n s s').
Proof.
  intros Hi coro Hc.
  induction Hc as [v|a k Ha Hk IH|request k Hk IH|e]; intros s Hs; simpl.
  - apply settled_below_refl.
  - apply wp_chain;
      [apply settled_below_trans|apply settled_below_refl|by apply Hi|].
    intros v s1 H1. unfold wp.
    eapply settled_below_trans; [exact H1|]. apply IH.
    destruct H1 as [-> _]. exact Hs.
  - apply wp_chain; [apply settled_below_trans|apply settled_below_refl| |].
    + unfold wp, rpc, bind, get, emit; simpl. exact (settled_below_refl rank n s).
    + intros v s1 H1. unfold wp.
      eapply settled_below_trans; [exact H1|]. apply IH.
      destruct H1 as [-> _]. exact Hs.
  - apply settled_below_refl.
Qed.

(** In an acyclic store [load] of [obj] memoizes only objects of rank up
    to that of [obj], and resolves only tags of definitions below it. *)
Lemma load_settled rank fuel : forall obj existing s,
  acyclic bp (objects s) rank ->
  wp (load_ fuel obj existing) s
     (fun _ s' => settled_below bp rank (S (rank obj)) s s').
Proof.
  induction fuel as [|fuel IH]; intros obj existing s Hs.
  { apply settled_below_refl. }
  unfold wp. destruct (load_ (S fuel) obj existing s) as [r s'] eqn:E. simpl.
  destruct (_local_uuid_to_object_id s !! obj) as [cached|] eqn:Hm.
  { rewrite (load_hit _ _ _ _ _ _ _ _ Hm) in E. inversion E; subst.
    apply settled_below_refl. }
  destruct (objects s !! obj) as [o|] eqn:Ho;
    [|rewrite load_dangling in E by done; inversion E; subst;
      apply settled_below_refl].
  pose proof (Hs obj o Ho) as Hacyc.
  assert (Hfin : forall v s1, settled_below bp rank (S (rank obj)) s s1 ->
            settled_below bp rank (S (rank obj)) s (memoize obj v s1))
    by (intros; apply settled_below_memoize; [done|lia]).
  destruct o as [_load|[app_name|] tag namespace [d|]].
  - rewrite (load_definition _ _ _ _ _ _ _ _ Hm Ho) in E.
    assert (Hrun : wp (intercept_coro server (fun a => load_ fuel a None)
                                      (_load app_id existing))
                      (log_event (EvLoad obj existing) s)
                      (fun _ s1 => settled_below bp rank (S (rank obj)) s s1)).
    { pose proof (intercept_coro_settled rank (rank obj)
                    (fun a => load_ fuel a None)
                    (fun a s0 Ha Hs0 =>
                       settled_below_mono rank _ _ _ _ Ha (IH a None s0 Hs0))
                    _ (Hacyc app_id existing)
                    (log_event (EvLoad obj existing) s) Hs) as H.
      unfold wp in *. eapply settled_below_mono; [|exact H]. lia. }
    unfold wp in Hrun.
    destruct (intercept_coro _ _ _ _) as [[w|e| |] s1]; simpl in Hrun;
      try (inversion E; subst; exact Hrun).
    destruct (reconcile existing w); [inversion E; subst; exact Hrun|].
    unfold store_and_return in E. destruct w; inversion E; subst; by apply Hfin.
  - rewrite (load_cross_app_deploy _ _ _ _ _ _ _ _ _ _ _ Hm Ho) in E.
    unfold deploy, _lookup_to_id, bind, get, emit, raise, ret in E. simpl in E.
    pose proof (settled_below_refl rank (S (rank obj)) s) as R.
    destruct (srv_deploy _ _ _ _); [inversion E; subst; exact R|].
    simpl in E. destruct (srv_lookup _ _ _ _ _) as [e|response];
      [inversion E; subst; exact R|].
    destruct (String.eqb _ _); inversion E; subst; [exact R|].
    apply Hfin. exact R.
  - rewrite (load_cross_app _ _ _ _ _ _ _ _ _ _ Hm Ho) in E.
    unfold _lookup_to_id, bind, get, emit, raise, ret in E. simpl in E.
    pose proof (settled_below_refl rank (S (rank obj)) s) as R.
    destruct (srv_lookup _ _ _ _ _) as [e|response];
      [inversion E; subst; exact R|].
    destruct (String.eqb _ _); inversion E; subst; [exact R|].
    apply Hfin. exact R.
  - rewrite (load_same_app_definition _ _ _ _ _ _ _ _ _ _ Hm Ho) in E.
    inversion E; subst. apply settled_below_refl.
  - destruct (_tag_to_object s !! tag) as [h|] eqn:Ht.
    + rewrite (load_same_app_resolved _ _ _ _ _ _ _ _ _ _ Hm Ho Ht) in E.
      inversion E; subst. apply Hfin. apply settled_below_refl.
    + destruct (blueprint_get bp tag) as [real_obj|] eqn:Hb.
      * rewrite (load_same_app_fetch _ _ _ _ _ _ _ _ _ _ Hm Ho Ht Hb) in E.
        specialize (Hacyc real_obj eq_refl).
        pose proof (IH real_obj (_tag_to_existing_id s !! tag) s Hs) as Hrun.
        unfold wp in Hrun.
        apply (settled_below_mono rank _ (S (rank obj))) in Hrun; [|lia].
        destruct (load _ _ _ fuel real_obj _ s) as [[w|e| |] s1]; simpl in Hrun;
          try (inversion E; subst; exact Hrun).
        unfold store_and_return in E.
        assert (settled_below bp rank (S (rank obj)) s
                  (memoize obj w (with_tag_to_object tag (from_id w) s1))).
        { apply Hfin. eapply settled_below_with_tag_to_object; eauto. lia. }
        destruct w; inversion E; subst; assumption.
      * rewrite (load_same_app_unknown _ _ _ _ _ _ _ _ _ Hm Ho Ht Hb) in E.
        inversion E; subst. apply settled_below_refl.
Qed.

(** X5.  In an acyclic store a [load] that raises leaves no id behind for
    its object: the object is still not memoized, unless the error is the
    missing id of lines 139-140, which leaves [None] memoized.  The same
    holds for the tag of a reference of the same application that was not
    resolved before: it is still unresolved, or resolved to [None]. *)
Theorem failed_load_leaves_no_id rank fuel obj existing s e s' :
  acyclic bp (objects s) rank ->
  _local_uuid_to_object_id s !! obj = None ->
  load bp app_id server fuel obj existing s = (Raised e, s') ->
  (_local_uuid_to_object_id s' !! obj = None \/
   e = ObjectIdIsNone /\ _local_uuid_to_object_id s' !! obj = Some None) /\
  (forall tag namespace,
      objects s !! obj = Some (Ref None tag namespace None) ->
      _tag_to_object s !! tag = None ->
      _tag_to_object s' !! tag = None \/
      e = ObjectIdIsNone /\ _tag_to_object s' !! tag = Some (from_id None)).
Proof.
  intros Hs Hm E. destruct fuel as [|fuel]; [discriminate|].
  destruct (objects s !! obj) as [o|] eqn:Ho;
    [|rewrite load_dangling in E by done; discriminate].
  pose proof (Hs obj o Ho) as Hacyc.
  destruct o as [_load|[app_name|] tag namespace [d|]].
  - split; [|discriminate].
    rewrite (load_definition _ _ _ _ _ _ _ _ Hm Ho) in E.
    assert (Hrun : wp (intercept_coro server (fun a => load_ fuel a None)
                                      (_load app_id existing))
                      (log_event (EvLoad obj existing) s)
                      (fun _ s1 => _local_uuid_to_object_id s1 !! obj = None)).
    { unfold wp.
      apply (settled_below_not_memoized rank (rank obj) s); [|exact Hm|lia].
      exact (intercept_coro_settled rank (rank obj)
               (fun a => load_ fuel a None)
               (fun a s0 Ha Hs0 =>
                  settled_below_mono rank _ _ _ _ Ha
                    (load_settled rank fuel a None s0 Hs0))
               _ (Hacyc app_id existing)
               (log_event (EvLoad obj existing) s) Hs). }
    unfold wp in Hrun.
    destruct (intercept_coro _ _ _ _) as [[w|e0| |] s1]; simpl in Hrun;
      try discriminate.
    + destruct (reconcile existing w); [inversion E; subst; by left|].
      unfold store_and_return in E. destruct w; [discriminate|].
      inversion E; subst. right. split; [done|]. simpl. apply lookup_insert_eq.
    + inversion E; subst. by left.
  - split; [|discriminate].
    rewrite (load_cross_app_deploy _ _ _ _ _ _ _ _ _ _ _ Hm Ho) in E.
    unfold deploy, _lookup_to_id, bind, get, emit, raise, ret in E. simpl in E.
    destruct (srv_deploy _ _ _ _); [inversion E; subst; by left|].
    simpl in E. destruct (srv_lookup _ _ _ _ _) as [e0|response];
      [inversion E; subst; by left|].
    destruct (String.eqb _ _); inversion E; subst; by left.
  - split; [|discriminate].
    rewrite (load_cross_app _ _ _ _ _ _ _ _ _ _ Hm Ho) in E.
    unfold _lookup_to_id, bind, get, emit, raise, ret in E. simpl in E.
    destruct (srv_lookup _ _ _ _ _) as [e0|response];
      [inversion E; subst; by left|].
    destruct (String.eqb _ _); inversion E; subst; by left.
  - rewrite (load_same_app_definition _ _ _ _ _ _ _ _ _ _ Hm Ho) in E.
    inversion E; subst. split; [by left|discriminate].
  - destruct (_tag_to_object s !! tag) as [h|] eqn:Ht.
    + rewrite (load_same_app_resolved _ _ _ _ _ _ _ _ _ _ Hm Ho Ht) in E.
      unfold store_and_return in E.
      destruct (object_id h); [discriminate|]. inversion E; subst. split.
      * right. split; [done|]. simpl. apply lookup_insert_eq.
      * intros tag' namespace' [= -> _] Hn. simpl in Hn. congruence.
    + destruct (blueprint_get bp tag) as [real_obj|] eqn:Hb.
      * rewrite (load_same_app_fetch _ _ _ _ _ _ _ _ _ _ Hm Ho Ht Hb) in E.
        specialize (Hacyc real_obj eq_refl).
        pose proof (load_settled rank fuel real_obj
                      (_tag_to_existing_id s !! tag) s Hs) as Hrun.
        unfold wp in Hrun.
        destruct (load _ _ _ fuel real_obj _ s) as [[w|e0| |] s1]; simpl in Hrun;
          try discriminate.
        -- unfold store_and_return in E. destruct w; [discriminate|].
           inversion E; subst. split.
           ++ right. split; [done|]. simpl. apply lookup_insert_eq.
           ++ intros tag' namespace' [= -> _] _. right. split; [done|].
              simpl. apply lookup_insert_eq.
        -- inversion E; subst. split.
           ++ left. eapply settled_below_not_memoized; [exact Hrun|exact Hm|lia].
           ++ intros tag' namespace' [= -> _] _. left.
              eapply settled_below_unresolved; [exact Hrun|exact Ht|exact Hb|lia].
      * rewrite (load_same_app_unknown _ _ _ _ _ _ _ _ _ Hm Ho Ht Hb) in E.
        inversion E; subst. split; [by left|]. intros; by left.
Qed.

(** X6.  Identity is kept per tag: when a reference of the same
    application is resolved through the blueprint to a definition that is
    not memoized yet, and [_tag_to_existing_id] has for the tag an id that
    does not start with [im-], then a [load] that returns gives exactly
    that id and keeps it under the tag. *)
Theorem tag_keeps_existing_id fuel obj existing s tag namespace real_obj _load e v s' :
  _local_uuid_to_object_id s !! obj = None ->
  objects s !! obj = Some (Ref None tag namespace None) ->
  _tag_to_object s !! tag = None ->
  blueprint_get bp tag = Some real_obj ->
  objects s !! real_obj = Some (Definition_ _load) ->
  _local_uuid_to_object_id s !! real_obj = None ->
  _tag_to_existing_id s !! tag = Some e ->
  String.prefix "im-" e = false ->
  load bp app_id server fuel obj existing s = (Returned v, s') ->
  v = Some e /\
  _tag_to_object s' !! tag = Some (from_id (Some e)) /\
  _local_uuid_to_object_id s' !! obj = Some (Some e).
Proof.
  intros Hm Ho Ht Hb Hor Hmr Hx Hp E.
  destruct fuel as [|fuel]; [discriminate|].
  rewrite (load_same_app_fetch _ _ _ _ _ _ _ _ _ _ Hm Ho Ht Hb), Hx in E.
  destruct (load _ _ _ fuel real_obj _ s) as [[w|e0| |] s1] eqn:E1;
    try discriminate.
  assert (w = Some e) as ->.
  { destruct fuel as [|fuel]; [discriminate|].
    rewrite (load_definition _ _ _ _ _ _ _ _ Hmr Hor) in E1.
    destruct (intercept_coro _ _ _ _) as [[w0|e0| |] s0]; try discriminate.
    unfold reconcile in E1. rewrite Hp in E1.
    destruct (object_id_eqb w0 (Some e)) eqn:Eq; simpl in E1; [|discriminate].
    apply object_id_eqb_eq in Eq. subst.
    unfold store_and_return in E1. by inversion E1. }
  unfold store_and_return in E. inversion E; subst. split; [done|].
  simpl. rewrite !lookup_insert_eq. done.
Qed.

(** X7.  Memoization comes before reconciliation: when the definition
    under a tag is already memoized (it was loaded as a dependency, say),
    [load] of a reference to the tag returns the memoized id and keeps it
    under the tag without any event, whatever [_tag_to_existing_id] has
    for the tag. *)
Theorem memoized_definition_is_not_reconciled
        fuel obj existing s tag namespace real_obj cached :
  _local_uuid_to_object_id s !! obj = None ->
  objects s !! obj = Some (Ref None tag namespace None) ->
  _tag_to_object s !! tag = None ->
  blueprint_get bp tag = Some real_obj ->
  _local_uuid_to_object_id s !! real_obj = Some (Some cached) ->
  load bp app_id server (S (S fuel)) obj existing s
  = (Returned (Some cached),
     memoize obj (Some cached)
             (with_tag_to_object tag (from_id (Some cached)) s)).
Proof.
  intros Hm Ho Ht Hb Hmr.
  by rewrite (load_same_app_fetch _ _ _ _ _ _ _ _ _ _ Hm Ho Ht Hb),
             (load_hit _ _ _ _ _ _ _ _ Hmr).
Qed.

(** X8.  A [load] of a reference to another application that raises
    changes none of the three dictionaries; and when the deployment of an
    embedded definition fails, its error is the error of [load] and no
    lookup is made. *)
Theorem failed_cross_app_load fuel obj existing s app_name tag namespace definition e s' :
  _local_uuid_to_object_id s !! obj = None ->
  objects s !! obj = Some (Ref (Some app_name) tag namespace definition) ->
  load bp app_id server fuel obj existing s = (Raised e, s') ->
  _tag_to_object s' = _tag_to_object s /\
  _tag_to_existing_id s' = _tag_to_existing_id s /\
  _local_uuid_to_object_id s' = _local_uuid_to_object_id s /\
  forall d e', definition = Some d ->
               srv_deploy server (events s) app_name [("_object", d)] = Some e' ->
               e = e' /\ events s' = events s ++ [EvDeploy app_name [("_object", d)]].
Proof.
  intros Hm Ho E. destruct fuel as [|fuel]; [discriminate|].
  destruct definition as [d|].
  - rewrite (load_cross_app_deploy _ _ _ _ _ _ _ _ _ _ _ Hm Ho) in E.
    unfold deploy, _lookup_to_id, bind, get, emit, raise, ret in E. simpl in E.
    destruct (srv_deploy _ _ _ _) as [e0|] eqn:Ed.
    + inversion E; subst. split; [done|]. split; [done|]. split; [done|].
      intros d' e' [= <-] Hd. rewrite Ed in Hd. by inversion Hd.
    + assert (Hno : forall d' e',
                 Some d = Some d' ->
                 srv_deploy server (events s) app_name [("_object", d')] = Some e' ->
                 e = e' /\
                 events s' = events s ++ [EvDeploy app_name [("_object", d')]]).
      { intros d' e' [= <-] Hd. congruence. }
      simpl in E. destruct (srv_lookup _ _ _ _ _) as [e0|response];
        [inversion E; subst; done|].
      destruct (String.eqb _ _); inversion E; subst. done.
  - assert (Hno : forall d' e',
               @None nat = Some d' ->
               srv_deploy server (events s) app_name [("_object", d')] = Some e' ->
               e = e' /\
               events s' = events s ++ [EvDeploy app_name [("_object", d')]])
      by discriminate.
    rewrite (load_cross_app _ _ _ _ _ _ _ _ _ _ Hm Ho) in E.
    unfold _lookup_to_id, bind, get, emit, raise, ret in E. simpl in E.
    destruct (srv_lookup _ _ _ _ _) as [e0|response];
      [inversion E; subst; done|].
    destruct (String.eqb _ _); inversion E; subst. done.
Qed.

(** *** Sessions as the entry points make them *)

Lemma new_session_valid objs evs app client aid tag_to_existing_id :
  let s := _dicts (__init__ objs evs app client aid None tag_to_existing_id) in
  memo_valid s /\ no_none s /\ _tag_to_object s = ∅.
Proof.
  simpl. split; [|split; [split|done]].
  - intros u [v Hv]. simpl in Hv. by rewrite lookup_empty in Hv.
  - intros u. simpl. by rewrite lookup_empty.
  - intros t h. simpl. by rewrite lookup_empty.
Qed.

(** X9.  On a session from [init_new] or [init_existing], after a
    [create_all_objects] that succeeded, [app[tag]] gives for every tag of
    the blueprint an object with an id, the id that was registered for the
    tag, and raises [KeyError] for every other tag. *)
Theorem created_objects_by_tag registry objs evs description app fuel s' :
  init_new registry objs evs bp client_id description = inr app \/
  init_existing registry objs evs bp client_id app_id = inr app ->
  _app_id app = Some app_id ->
  create_all_objects bp app_id client_id server fuel (_dicts app) = (Returned tt, s') ->
  exists evs' object_ids,
    events s' = evs' ++ [EvAppSetObjects app_id object_ids client_id] /\
    (forall tag, tag ∈ map fst bp ->
       exists object_id',
         __getitem__ tag s' = (Returned (from_id (Some object_id')), s') /\
         object_ids !! tag = Some (Some object_id')) /\
    (forall tag, tag ∉ map fst bp ->
       __getitem__ tag s' = (Raised (KeyError tag), s') /\
       object_ids !! tag = None).
Proof.
  intros Hinit Haid E.
  assert (exists aid x, app = __init__ objs evs (Some bp) (Some client_id) aid None x)
    as (aid & x & ->).
  { destruct Hinit as [H|H].
    - unfold init_new in H. destruct (reg_app_create _ _ _ _); inversion H. eauto.
    - unfold init_existing in H. destruct (reg_app_get_objects _ _ _ _); inversion H.
      eauto. }
  destruct (new_session_valid objs evs (Some bp) (Some client_id) aid x)
    as (Hv & Hn & Hempty).
  set (s := _dicts (__init__ objs evs (Some bp) (Some client_id) aid None x)) in *.
  apply create_all_objects_run in E as (r1 & s1 & E1 & E2).
  destruct r1 as [[]|e| |]; destruct E2 as [-> E2]; try discriminate.
  pose proof (load_tags_later _ _ _ _ _ _ _ _ E1) as L.
  pose proof (load_tags_no_none _ _ _ _ Hn E1) as H1.
  exists (events s1), (object_id <$> _tag_to_object s1). split; [done|]. split.
  - intros tag Ht.
    destruct (load_tags_resolves _ _ _ _ _ _ _ Hv E1 tag Ht) as [[[id|]] Hh].
    + exists id. unfold __getitem__, bind, get, ret. simpl. rewrite Hh.
      split; [done|]. by rewrite lookup_fmap, Hh.
    + by destruct (proj2 H1 tag _ Hh).
  - intros tag Ht.
    assert (Hnone : _tag_to_object s1 !! tag = None).
    { destruct (_tag_to_object s1 !! tag) eqn:Hh; [|done]. exfalso. apply Ht.
      apply blueprint_get_is_Some. eapply (later_new_tags _ _ _ L); [|eauto].
      by rewrite Hempty, lookup_empty. }
    unfold __getitem__, bind, get, raise. simpl. rewrite Hnone.
    split; [done|]. by rewrite lookup_fmap, Hnone.
Qed.

(** *** The container *)

Lemma store_objects_spec object_ids s :
  let s' := store_objects object_ids s in
  objects s' = objects s /\ events s' = events s /\
  _tag_to_existing_id s' = _tag_to_existing_id s /\
  _local_uuid_to_object_id s' = _local_uuid_to_object_id s /\
  forall tag, _tag_to_object s' !! tag
              = match object_ids !! tag with
                | Some object_id' => Some (from_id (Some object_id'))
                | None => _tag_to_object s !! tag
                end.
Proof.
  unfold store_objects.
  apply (map_fold_weak_ind
           (fun (r : State) (m : gmap string string) =>
              objects r = objects s /\ events r = events s /\
              _tag_to_existing_id r = _tag_to_existing_id s /\
              _local_uuid_to_object_id r = _local_uuid_to_object_id s /\
              forall tag, _tag_to_object r !! tag
                          = match m !! tag with
                            | Some object_id' => Some (from_id (Some object_id'))
                            | None => _tag_to_object s !! tag
                            end)).
  - by repeat split.
  - intros i x m r Hi (Ho & He & Hx & Hm & Ht). repeat split; try done.
    intros tag. simpl. destruct (decide (tag = i)) as [->|Hne].
    + by rewrite !lookup_insert_eq.
    + rewrite !lookup_insert_ne by done. apply Ht.
Qed.

(** X10.  When [init_container] succeeds, the singleton has for every tag
    of the answer an object with the id of the answer, and keeps for every
    other tag what it had before (a second bootstrap adds to the first).
    Its memoization cache and [_tag_to_existing_id] are as before, and
    [app[tag]] reads the objects back. *)
Theorem init_container_stores_objects registry client aid task_id g self g' :
  init_container registry client aid task_id g = (inr self, g') ->
  exists object_ids,
    reg_app_get_objects registry (events (_dicts (_container_app g))) aid (Some task_id)
    = inr object_ids /\
    _container_app g' = self /\
    _client self = Some client /\ _app_id self = Some aid /\
    _local_uuid_to_object_id (_dicts self)
    = _local_uuid_to_object_id (_dicts (_container_app g)) /\
    _tag_to_existing_id (_dicts self)
    = _tag_to_existing_id (_dicts (_container_app g)) /\
    forall tag,
      __getitem__ tag (_dicts self)
      = (match object_ids !! tag with
         | Some object_id' => Returned (from_id (Some object_id'))
         | None => (__getitem__ tag (_dicts (_container_app g))).1
         end, _dicts self).
Proof.
  unfold init_container. simpl.
  destruct (reg_app_get_objects _ _ _ _) as [e|object_ids] eqn:Er; [discriminate|].
  intros [= <- <-]. exists object_ids. simpl.
  destruct (store_objects_spec object_ids (_dicts (_container_app g)))
    as (_ & _ & Hx & Hm & Ht).
  repeat split; try done.
  intros tag. unfold __getitem__, bind, get, ret, raise. simpl. rewrite Ht.
  destruct (object_ids !! tag); [done|].
  by destruct (_tag_to_object (_dicts (_container_app g)) !! tag).
Qed.

(** X11.  After [init_container] succeeded, [load] of a reference of the
    same application to a tag of the answer returns the id of the answer
    and memoizes it, without any event and whatever the blueprint is. *)
Theorem container_load_needs_no_call
        registry client aid task_id g self g' object_ids tag object_id'
        fuel obj existing namespace :
  init_container registry client aid task_id g = (inr self, g') ->
  reg_app_get_objects registry (events (_dicts (_container_app g))) aid (Some task_id)
  = inr object_ids ->
  object_ids !! tag = Some object_id' ->
  _local_uuid_to_object_id (_dicts self) !! obj = None ->
  objects (_dicts self) !! obj = Some (Ref None tag namespace None) ->
  load bp app_id server (S fuel) obj existing (_dicts self)
  = (Returned (Some object_id'), memoize obj (Some object_id') (_dicts self)).
Proof.
  intros E Er Hid Hm Ho.
  assert (Hself : _dicts self = store_objects object_ids (_dicts (_container_app g))).
  { unfold init_container in E. cbv zeta in E. cbn [_dicts events] in E.
    rewrite Er in E. by inversion E. }
  destruct (store_objects_spec object_ids (_dicts (_container_app g)))
    as (_ & _ & _ & _ & Ht).
  specialize (Ht tag). rewrite Hid, <- Hself in Ht.
  rewrite (load_same_app_resolved _ _ _ _ _ _ _ _ _ _ Hm Ho Ht).
  unfold store_and_return. done.
Qed.

(** X12.  [init_container] marks the process as a container before it
    asks the server: whether it succeeds or raises, [is_local()] is false
    afterwards and the singleton has the new client and application id; a
    failure leaves its dictionaries as they were.  [reset_container] makes
    [is_local()] true again and keeps the singleton, with its objects, as
    it is. *)
Theorem init_container_marks_process registry client aid task_id g :
  let run := init_container registry client aid task_id g in
  is_local run.2 = false /\
  _client (_container_app run.2) = Some client /\
  _app_id (_container_app run.2) = Some aid /\
  (forall e, run.1 = inl e ->
             _dicts (_container_app run.2) = _dicts (_container_app g)) /\
  is_local (reset_container run.2) = true /\
  _container_app (reset_container run.2) = _container_app run.2.
Proof.
  unfold init_container. simpl.
  destruct (reg_app_get_objects _ _ _ _) as [e|object_ids]; simpl;
    repeat split; try done.
Qed.

End Coverage.

(** ** The further theorems at work *)

Module CoverageWitness.
Import Scenario Deployment.

Lemma fresh_no_none : no_none fresh.
Proof.
  split.
  - intros u. cbn [fresh _local_uuid_to_object_id]. by rewrite lookup_empty.
  - intros t h. cbn [fresh _tag_to_object]. by rewrite lookup_empty.
Qed.

(** X1 at the load of a reference to tag a. *)
Lemma success_stores_ids_witness :
  is_Some (Some "ob-a") /\ no_none (load' 3 3 None fresh).2.
Proof.
  destruct (success_stores_ids blueprint "ap-1" "cl-1" server fresh fresh_no_none)
    as [H _].
  apply (H 3 3 None). reflexivity.
Defined.

(** X2 at the blueprint a, b, c. *)
Lemma create_all_objects_again_witness :
  let s' := (create_all_objects' 5 fresh).2 in
  exists r s'',
    create_all_objects' 1 s' = (r, s'') /\
    events s''
    = events s' ++ [EvAppSetObjects "ap-1" (object_id <$> _tag_to_object s') "cl-1"] /\
    _tag_to_object s'' = _tag_to_object s'.
Proof.
  intros s'.
  destruct (create_all_objects_again blueprint "ap-1" "cl-1" server 5 fresh s'
              Witness.fresh_valid fresh_no_none eq_refl) as [_ H].
  destruct (H 0) as (r & s'' & E & He & Ht & _). by exists r, s''.
Defined.

(** X3 at a session that already has the tag [ghost]. *)
Lemma create_all_objects_sends_all_witness :
  exists evs object_ids,
    events (create_all_objects' 5 container).2
    = evs ++ [EvAppSetObjects "ap-1" object_ids "cl-1"] /\
    is_Some (object_ids !! "ghost") /\ object_ids !! "ghost" = Some (Some "ob-1").
Proof.
  destruct (create_all_objects_sends_all blueprint "ap-1" "cl-1" server 5 container
              (create_all_objects' 5 container).2)
    as (evs & object_ids & He & Hk & Hold).
  - intros u [v Hv]. cbn in Hv. by rewrite lookup_empty in Hv.
  - reflexivity.
  - exists evs, object_ids. split; [exact He|]. split.
    + apply Hk. left. by exists (from_id (Some "ob-1")).
    + by apply (Hold "ghost" (from_id (Some "ob-1"))).
Defined.

(** X4 at the redeployment, where the definition of tag a is created with
    the existing id of the tag, and at a definition under no tag that is
    loaded with an existing id. *)
Lemma existing_ids_come_from_tags_witness :
  (exists evs,
      events (load' 3 3 None redeployed).2 = events redeployed ++ evs /\
      (Forall (existing_event blueprint (_tag_to_existing_id redeployed)) evs \/
       exists _load evs',
         objects redeployed !! 3 = Some (Definition_ _load) /\
         _local_uuid_to_object_id redeployed !! 3 = None /\
         evs = EvLoad 3 None :: evs' /\
         Forall (existing_event blueprint (_tag_to_existing_id redeployed)) evs')) /\
  events (load' 3 3 None redeployed).2 = [EvLoad 0 (Some "ob-a"); EvRpc "a"] /\
  events (load' 1 9 (Some "fn-2") fresh).2 = [EvLoad 9 (Some "fn-2")] /\
  existing_trace blueprint redeployed (create_all_objects' 5 redeployed).2.
Proof.
  destruct (existing_ids_come_from_tags blueprint "ap-1" "cl-1" server redeployed)
    as [H1 H2].
  split; [|split; [reflexivity|split; [reflexivity|]]].
  - apply (H1 3 3 None (load' 3 3 None redeployed).1). apply surjective_pairing.
  - apply (H2 5 (create_all_objects' 5 redeployed).1). apply surjective_pairing.
Defined.

(** X5 at a definition whose creation call fails. *)
Lemma failed_load_leaves_no_id_witness :
  let run := load' 2 11 None fresh in
  run.1 = Raised (RemoteError "down") /\
  _local_uuid_to_object_id run.2 !! 11 = None.
Proof.
  intros run. split; [reflexivity|].
  destruct (failed_load_leaves_no_id blueprint "ap-1" server rank 2 11 None fresh
              (RemoteError "down") run.2 Witness.store_acyclic eq_refl eq_refl)
    as [[H|[H _]] _]; [exact H|discriminate].
Defined.

(** X6 at the redeployment of tag a. *)
Lemma tag_keeps_existing_id_witness :
  (load' 3 3 None redeployed).1 = Returned (Some "ob-a") /\
  _tag_to_object (load' 3 3 None redeployed).2 !! "a" = Some (from_id (Some "ob-a")).
Proof.
  split; [reflexivity|].
  apply (tag_keeps_existing_id blueprint "ap-1" server 3 3 None redeployed "a" NS 0
           (fun _ _ => create "a") "ob-a" (Some "ob-a"));
    reflexivity.
Defined.

(** X7 at a session that has memoized the definition of tag a. *)
Lemma memoized_definition_is_not_reconciled_witness :
  load' 2 3 None memoized
  = (Returned (Some "ob-a"),
     memoize 3 (Some "ob-a") (with_tag_to_object "a" (from_id (Some "ob-a")) memoized)).
Proof.
  apply (memoized_definition_is_not_reconciled blueprint "ap-1" server 0 3 None
           memoized "a" NS 0 "ob-a");
    reflexivity.
Defined.

(** X8 at a reference with an embedded definition, on a server that
    deploys nothing. *)
Lemma failed_cross_app_load_witness :
  let run := load blueprint "ap-1" closed_server 1 5 None fresh in
  run.1 = Raised (RemoteError "down") /\
  _local_uuid_to_object_id run.2 = ∅ /\
  events run.2 = [EvDeploy "X" [("_object", 6)]].
Proof.
  intros run.
  destruct (failed_cross_app_load blueprint "ap-1" closed_server 1 5 None fresh
              "X" "q" NS (Some 6) (RemoteError "down") run.2 eq_refl eq_refl eq_refl)
    as (_ & _ & Hm & Hd).
  destruct (Hd 6 (RemoteError "down") eq_refl eq_refl) as [_ He].
  split; [reflexivity|]. split; [exact Hm|exact He].
Defined.

(** X9 at a new application with the blueprint a, b, c. *)
Lemma created_objects_by_tag_witness :
  exists app s',
    init_new registry store [] blueprint "cl-1" "demo" = inr app /\
    create_all_objects' 5 (_dicts app) = (Returned tt, s') /\
    exists evs' object_ids,
      events s' = evs' ++ [EvAppSetObjects "ap-1" object_ids "cl-1"] /\
      (exists object_id',
          __getitem__ "b" s' = (Returned (from_id (Some object_id')), s') /\
          object_ids !! "b" = Some (Some object_id')) /\
      __getitem__ "ghost" s' = (Raised (KeyError "ghost"), s').
Proof.
  set (app := __init__ store [] (Some blueprint) (Some "cl-1") (Some "ap-1") None None).
  assert (E : create_all_objects' 5 (_dicts app)
              = (Returned tt, (create_all_objects' 5 (_dicts app)).2))
    by (vm_compute; reflexivity).
  exists app, (create_all_objects' 5 (_dicts app)).2.
  split; [reflexivity|]. split; [exact E|].
  destruct (created_objects_by_tag blueprint "ap-1" "cl-1" server registry store []
              "demo" app 5 _ (or_introl eq_refl) eq_refl E)
    as (evs' & object_ids & He & Hin & Hout).
  exists evs', object_ids. split; [exact He|]. split.
  - apply Hin. apply elem_of_cons. right. apply elem_of_cons. by left.
  - apply Hout. exact Witness.ghost_not_in_blueprint.
Defined.

(** X10 at the bootstrap of a container of [ap-1]. *)
Lemma init_container_stores_objects_witness :
  let run := init_container registry "cl-1" "ap-1" "ta-1" (imported store []) in
  exists self,
    run = (inr self, run.2) /\
    __getitem__ "a" (_dicts self) = (Returned (from_id (Some "ob-a")), _dicts self) /\
    __getitem__ "b" (_dicts self) = (Raised (KeyError "b"), _dicts self).
Proof.
  intros run.
  assert (E : exists self, run = (inr self, run.2)) by (eexists; reflexivity).
  destruct E as [self E]. exists self. split; [exact E|].
  destruct (init_container_stores_objects registry "cl-1" "ap-1" "ta-1"
              (imported store []) self run.2 E)
    as (object_ids & Er & _ & _ & _ & _ & _ & Hget).
  inversion Er; subst. split; apply Hget.
Defined.

(** X11 at a reference to tag a in that container. *)
Lemma container_load_needs_no_call_witness :
  let run := init_container registry "cl-1" "ap-1" "ta-1" (imported store []) in
  exists self,
    run.1 = inr self /\
    load [] "ap-1" server 1 3 None (_dicts self)
    = (Returned (Some "ob-a"), memoize 3 (Some "ob-a") (_dicts self)).
Proof.
  intros run. eexists. split; [reflexivity|].
  apply (container_load_needs_no_call [] "ap-1" server registry "cl-1" "ap-1" "ta-1"
           (imported store []) _ run.2 (<["a" := "ob-a"]> ∅) "a" "ob-a" 0 3 None NS);
    reflexivity.
Defined.

End CoverageWitness.
